(** * askrene: the layered network view and its constraint engine

    A shallow embedding of [plugins/askrene/askrene.c]: the capacity cache
    ([get_capacities]), the per-edge liquidity window ([get_constraints]),
    the route query ([get_routes], [json_getroutes]) and the commands that
    mutate reservations and layers.

    Unsigned 64-bit quantities are integers in [0, 2^64) with the wrap-around
    written out; hash tables are finite maps; the tal arrays are lists, and
    a slot of an array of pointers holds a pointer only once the program
    has stored one; every command is a function from the plugin state to
    the new state and a command result, or has no defined outcome where
    the C code has none. *)

From Stdlib Require Import ZArith QArith Qround Lia.
From stdpp Require Import base option list gmap strings.

Local Open Scope Z_scope.

(** ** Machine integers *)

Definition U64_MAX : Z := 2 ^ 64 - 1.

(** Reduction of an unsigned 64-bit result. *)
Definition u64 (z : Z) : Z := z mod 2 ^ 64.

(** ** Amounts ([struct amount_msat], [struct amount_sat]) *)

(** Modelled from the spec: [common/amount.c] is not among the sources.
    Amounts are "stored in 64 bits"; "add/sub of msat values return
    (result, saturated)": the operations return [None] where the C
    functions return [false] and leave the output untouched. *)
Definition amount_msat_add (a b : Z) : option Z :=
  if U64_MAX <? a + b then None else Some (a + b).

Definition amount_msat_sub (a b : Z) : option Z :=
  if a <? b then None else Some (a - b).

Definition MSAT_PER_SAT : Z := 1000.

Definition amount_sat_to_msat (sat : Z) : option Z :=
  if U64_MAX <? sat * MSAT_PER_SAT then None else Some (sat * MSAT_PER_SAT).

Definition amount_msat_greater (a b : Z) : bool := b <? a.
Definition amount_msat_less (a b : Z) : bool := a <? b.
Definition amount_msat_eq (a b : Z) : bool := a =? b.

(** ** The fp16 codec

    [get_capacities] compresses with [u64_to_fp16 _ true] and
    [get_constraints] expands with [fp16_to_u64]; [common/fp16] is not among
    the sources, so the embedding of both functions takes the codec as an
    interface. *)
Class Fp16Codec := {
  fp16_to_u64 : Z → Z;
  u64_to_fp16 : Z → bool → Z
}.

(** Modelled from the spec: [common/fp16.h] and [common/fp16.c] are not
    among the sources. The spec describes a "16-bit compressed float",
    "lossy but monotonic", and does not fix the layout; the model takes
    five bits of exponent above eleven bits of mantissa, the value being
    the mantissa shifted left by the exponent. Compression keeps the eleven
    leading bits, rounds up on request when bits are lost, and saturates at
    the largest code. *)
Definition common_fp16_to_u64 (val : Z) : Z :=
  Z.shiftl (Z.land val (2 ^ 11 - 1)) (Z.shiftr val 11).

Definition common_u64_to_fp16 (val : Z) (round_up : bool) : Z :=
  if val =? 0 then 0
  else
    let mantissa_bits := Z.log2 val + 1 in
    let '(exponent, mantissa) :=
      if 11 <? mantissa_bits then
        let exponent := mantissa_bits - 11 in
        let mantissa := Z.shiftr val exponent in
        let '(exponent, mantissa) :=
          if round_up && negb (Z.land val (2 ^ exponent - 1) =? 0) then
            if mantissa + 1 =? 2 ^ 11
            then (exponent + 1, Z.shiftr (mantissa + 1) 1)
            else (exponent, mantissa + 1)
          else (exponent, mantissa) in
        if 32 <=? exponent then (31, 2 ^ 11 - 1) else (exponent, mantissa)
      else (0, val) in
    Z.lor (Z.shiftl exponent 11) mantissa.

Definition common_fp16 : Fp16Codec :=
  {| fp16_to_u64 := common_fp16_to_u64; u64_to_fp16 := common_u64_to_fp16 |}.

(** ** Identifiers *)

(** A node id is the 33-byte compressed public key, read as one integer.
    A [struct short_channel_id_dir] is the pair of the scid and the
    direction; the direction is a C [int], and the commands only ever store
    0 or 1. *)
Definition node_id : Type := Z.

(** ** The channel graph ([struct gossmap]) *)

Record half_chan := {
  hc_enabled : bool;
  hc_base_fee : Z;
  hc_proportional_fee : Z;
  hc_delay : Z;
  hc_htlc_min : Z;
  hc_htlc_max : Z
}.

Record gossmap_chan := {
  chan_scid : Z;
  chan_idx : nat;
  chan_node1 : node_id;
  chan_node2 : node_id;
  chan_capacity : option Z;
  chan_half0 : half_chan;
  chan_half1 : half_chan
}.

(** Modelled from the spec: [common/gossmap.c] is not among the sources.
    The graph holds the channels loaded so far ([gm_chans]), the records of
    the gossip store that were not read yet ([gm_unread]) and, while an
    overlay patch is applied, the channels as they were before it
    ([gm_saved]). *)
Record gossmap := {
  gm_chans : list gossmap_chan;
  gm_unread : list gossmap_chan;
  gm_saved : option (list gossmap_chan)
}.

Record gossmap_localmods := {
  lm_chans : list gossmap_chan;
  lm_disabled : list Z
}.

Definition gossmap_chan_idx (c : gossmap_chan) : nat := chan_idx c.
Definition gossmap_chan_scid (c : gossmap_chan) : Z := chan_scid c.

(** [gossmap_chan_get_capacity] fails for a channel without an on-chain
    amount (a local channel). *)
Definition gossmap_chan_get_capacity (c : gossmap_chan) : option Z :=
  chan_capacity c.

(** One more than the largest channel index in use. *)
Definition gossmap_max_chan_idx (g : gossmap) : nat :=
  foldr (λ c m, Nat.max (S (chan_idx c)) m) 0%nat (gm_chans g).

Definition gossmap_find_chan (g : gossmap) (scid : Z) : option gossmap_chan :=
  list_find (λ c, chan_scid c = scid) (gm_chans g) ≫= λ p, Some p.2.

(** "refresh() → bool (true iff the underlying snapshot advanced)". *)
Definition gossmap_refresh (g : gossmap) : gossmap * bool :=
  match gm_unread g with
  | [] => (g, false)
  | _ :: _ =>
      ({| gm_chans := gm_chans g ++ gm_unread g;
          gm_unread := [];
          gm_saved := gm_saved g |}, true)
  end.

Definition gossmap_localmods_new : gossmap_localmods :=
  {| lm_chans := []; lm_disabled := [] |}.

Definition disable_half (h : half_chan) : half_chan :=
  {| hc_enabled := false;
     hc_base_fee := hc_base_fee h;
     hc_proportional_fee := hc_proportional_fee h;
     hc_delay := hc_delay h;
     hc_htlc_min := hc_htlc_min h;
     hc_htlc_max := hc_htlc_max h |}.

Definition disable_chan (c : gossmap_chan) : gossmap_chan :=
  {| chan_scid := chan_scid c;
     chan_idx := chan_idx c;
     chan_node1 := chan_node1 c;
     chan_node2 := chan_node2 c;
     chan_capacity := chan_capacity c;
     chan_half0 := disable_half (chan_half0 c);
     chan_half1 := disable_half (chan_half1 c) |}.

(** "Applying the patch modifies the graph to include local channels and
    the effect of disabled nodes; removing the patch restores the prior
    view exactly." *)
Definition patch_chans (mods : gossmap_localmods)
    (cs : list gossmap_chan) : list gossmap_chan :=
  (λ c, if bool_decide (chan_scid c ∈ lm_disabled mods)
        then disable_chan c else c) <$> (cs ++ lm_chans mods).

Definition gossmap_apply_localmods (g : gossmap)
    (mods : gossmap_localmods) : gossmap :=
  {| gm_chans := patch_chans mods (gm_chans g);
     gm_unread := gm_unread g;
     gm_saved := Some (gm_chans g) |}.

Definition gossmap_remove_localmods (g : gossmap)
    (mods : gossmap_localmods) : gossmap :=
  match gm_saved g with
  | Some cs => {| gm_chans := cs; gm_unread := gm_unread g; gm_saved := None |}
  | None => g
  end.

(** ** The reservation table ([struct reserve_hash]) *)

(** A reservation; the key of the table carries its scidd. *)
Record reserve := {
  r_amount : Z;
  r_num_htlcs : Z
}.

Abbreviation reserve_hash := (gmap (Z * Z) reserve).

(** Modelled from the spec: [plugins/askrene/reserve.c] is not among the
    sources. "find(scidd) → Option<Reservation>". *)
Definition find_reserve (reserved : reserve_hash)
    (scidd : Z * Z) : option reserve :=
  reserved !! scidd.

(** Modelled from the spec: one entry of [reserves_add]. "Multiple
    reservations on the same scidd accumulate into one logical record;
    num_htlcs counts contributors"; the entry fails when the "summed amount
    would exceed u64". *)
Definition reserve_add_one (reserved : reserve_hash) (scidd : Z * Z)
    (amount : Z) : option reserve_hash :=
  match reserved !! scidd with
  | None =>
      Some (<[scidd := {| r_amount := amount; r_num_htlcs := 1 |}]> reserved)
  | Some r =>
      match amount_msat_add (r_amount r) amount with
      | None => None
      | Some sum =>
          Some (<[scidd := {| r_amount := sum;
                              r_num_htlcs := r_num_htlcs r + 1 |}]> reserved)
      end
  end.

(** Modelled from the spec: the loop of [reserves_add] from index [i] on.
    "attempts to add each entry in order; on the first overflow returns the
    index, and none of the entries at or after that index are applied.
    Successful entries stay applied". *)
Fixpoint reserves_add_from (reserved : reserve_hash)
    (path : list ((Z * Z) * Z)) (i : nat) : reserve_hash * nat :=
  match path with
  | [] => (reserved, i)
  | (scidd, amount) :: rest =>
      match reserve_add_one reserved scidd amount with
      | None => (reserved, i)
      | Some reserved' => reserves_add_from reserved' rest (S i)
      end
  end.

Definition reserves_add (reserved : reserve_hash) (scidds : list (Z * Z))
    (amounts : list Z) (num : nat) : reserve_hash * nat :=
  reserves_add_from reserved (take num (zip scidds amounts)) 0.

(** Zero the cache entry of the channel [scid], when the graph has it and
    its index is inside the cache. *)
Definition clear_capacity (g : gossmap) (caps : list Z) (scid : Z) : list Z :=
  match gossmap_find_chan g scid with
  | Some c => <[gossmap_chan_idx c := 0]> caps
  | None => caps
  end.

(** Modelled from the spec: "for every reserved scidd whose channel exists
    in graph, zero the cache entry at that channel's index so the fast path
    falls through". *)
Definition reserves_clear_capacities (reserved : reserve_hash) (g : gossmap)
    (caps : list Z) : list Z :=
  foldl (clear_capacity g) caps ((map_to_list reserved).*1.*1).

(** ** Layers ([struct layer]) *)

Inductive constraint_type := CONSTRAINT_MIN | CONSTRAINT_MAX.

#[global] Instance constraint_type_eq_dec : EqDecision constraint_type.
Proof. solve_decision. Defined.

#[global] Instance constraint_type_countable : Countable constraint_type.
Proof.
  refine (inj_countable' (λ t, match t with
                               | CONSTRAINT_MIN => false
                               | CONSTRAINT_MAX => true
                               end)
                         (λ b : bool, if b then CONSTRAINT_MAX
                                      else CONSTRAINT_MIN) _).
  by intros [].
Defined.

(** A constraint; the key of the table carries its scidd and kind. *)
Record constraint := {
  c_limit : Z;
  c_timestamp : Z
}.

Record local_channel := {
  lc_n1 : node_id;
  lc_n2 : node_id;
  lc_capacity : Z;
  lc_half : half_chan
}.

(** Modelled from the spec: [plugins/askrene/layer.c] is not among the
    sources. A layer is "{name, local_channels, constraints,
    disabled_nodes}", with "at most one MIN and one MAX per
    (layer, scidd)". *)
Record layer := {
  l_name : string;
  l_local_channels : gmap Z local_channel;
  l_constraints : gmap (Z * Z * constraint_type) constraint;
  l_disabled_nodes : list node_id
}.

Definition empty_layer (name : string) : layer :=
  {| l_name := name; l_local_channels := ∅; l_constraints := ∅;
     l_disabled_nodes := [] |}.

Definition layer_find_local_channel (l : layer)
    (scid : Z) : option local_channel :=
  l_local_channels l !! scid.

(** "structural equality": endpoints and capacity. *)
Definition layer_check_local_channel (lc : local_channel) (n1 n2 : node_id)
    (capacity : Z) : bool :=
  bool_decide (lc_n1 lc = n1) && bool_decide (lc_n2 lc = n2)
  && amount_msat_eq (lc_capacity lc) capacity.

(** "insert or replace". *)
Definition layer_update_local_channel (l : layer) (src dst : node_id)
    (scid capacity base_fee proportional_fee delay htlc_min htlc_max : Z)
    : layer :=
  {| l_name := l_name l;
     l_local_channels :=
       <[scid := {| lc_n1 := src; lc_n2 := dst; lc_capacity := capacity;
                    lc_half := {| hc_enabled := true;
                                  hc_base_fee := base_fee;
                                  hc_proportional_fee := proportional_fee;
                                  hc_delay := delay;
                                  hc_htlc_min := htlc_min;
                                  hc_htlc_max := htlc_max |} |}]>
         (l_local_channels l);
     l_constraints := l_constraints l;
     l_disabled_nodes := l_disabled_nodes l |}.

Definition layer_find_constraint (l : layer) (scidd : Z * Z)
    (type : constraint_type) : option constraint :=
  l_constraints l !! (scidd, type).

(** "insert or replace the (kind) entry for that scidd"; the constraint
    stored is returned with the layer. *)
Definition layer_update_constraint (l : layer) (scidd : Z * Z)
    (type : constraint_type) (timestamp limit : Z) : layer * constraint :=
  let c := {| c_limit := limit; c_timestamp := timestamp |} in
  ({| l_name := l_name l;
      l_local_channels := l_local_channels l;
      l_constraints := <[(scidd, type) := c]> (l_constraints l);
      l_disabled_nodes := l_disabled_nodes l |}, c).

(** The graph channel a local channel becomes inside an overlay patch; it
    has no on-chain capacity. *)
Definition local_chan_to_gossmap (idx : nat) (scid : Z)
    (lc : local_channel) : gossmap_chan :=
  {| chan_scid := scid; chan_idx := idx;
     chan_node1 := lc_n1 lc; chan_node2 := lc_n2 lc;
     chan_capacity := None;
     chan_half0 := lc_half lc; chan_half1 := lc_half lc |}.

(** "register every local_channel and every disabled-node effect into the
    overlay patch". *)
Definition layer_add_localmods (l : layer) (g : gossmap)
    (mods : gossmap_localmods) : gossmap_localmods :=
  let base := (gossmap_max_chan_idx g + length (lm_chans mods))%nat in
  {| lm_chans :=
       lm_chans mods ++
       imap (λ i p, local_chan_to_gossmap (base + i) p.1 p.2)
            (map_to_list (l_local_channels l));
     lm_disabled :=
       lm_disabled mods ++
       (chan_scid <$>
          filter (λ c, chan_node1 c ∈ l_disabled_nodes l
                       ∨ chan_node2 c ∈ l_disabled_nodes l) (gm_chans g)) |}.

(** "for every constraint or local channel this layer asserts ..., zero the
    cache entry for that channel index". *)
Definition layer_clear_overridden_capacities (l : layer) (g : gossmap)
    (caps : list Z) : list Z :=
  foldl (clear_capacity g) caps
        ((map_to_list (l_constraints l)).*1.*1.*1
         ++ (map_to_list (l_local_channels l)).*1).

(** ** The plugin state ([struct askrene]) and the query context *)

Record askrene := {
  a_layers : gmap string layer;
  a_reserved : reserve_hash;
  a_gossmap : gossmap;
  a_capacities : list Z
}.

Definition find_layer (a : askrene) (name : string) : option layer :=
  a_layers a !! name.

(** A layer is mutated in place through its pointer: the store then holds
    the new value under the layer's name. *)
Definition set_layer (a : askrene) (name : string) (l : layer) : askrene :=
  {| a_layers := <[name := l]> (a_layers a);
     a_reserved := a_reserved a;
     a_gossmap := a_gossmap a;
     a_capacities := a_capacities a |}.

(** "Layers are created lazily on first mutation." *)
Definition new_layer (a : askrene) (name : string) : askrene * layer :=
  (set_layer a name (empty_layer name), empty_layer name).

Record route_query := {
  rq_gossmap : gossmap;
  rq_reserved : reserve_hash;
  rq_layers : list layer;
  rq_capacities : list Z
}.

Record route_hop := {
  rh_scid : Z;
  rh_direction : Z;
  rh_node_id : node_id;
  rh_amount : Z;
  rh_delay : Z
}.

(** [success_prob] is a C double. The only value the code stores is 1, and
    1 * 1000000 is exact in binary64, so rational arithmetic agrees with the
    floating-point product wherever the code evaluates it. *)
Record route := {
  success_prob : Q;
  hops : list route_hop
}.

(** A slot of an array of pointers. [tal_arr] does not initialise the
    block it returns ([tal_arrz] does): a slot holds a pointer only once
    the program has stored one. [slot_set x] is a slot that points to an
    object whose value is [x]. *)
Inductive slot (A : Type) :=
| slot_unset
| slot_set (x : A).

Arguments slot_unset {A}.
Arguments slot_set {A} x.

Definition tal_arr {A : Type} (n : nat) : list (slot A) :=
  replicate n slot_unset.

(** An assignment to a field of the object that slot [i] points to. Where
    the slot holds no pointer the C code has no defined behaviour: the
    result is [None]. *)
Definition store_through {A : Type} (arr : list (slot A)) (i : nat)
    (f : A → A) : option (list (slot A)) :=
  match arr !! i with
  | Some (slot_set x) => Some (<[i := slot_set (f x)]> arr)
  | _ => None
  end.

(** The objects that the slots of an array point to. *)
Definition slot_values {A : Type} (arr : list (slot A)) : list A :=
  arr ≫= λ s, match s with
              | slot_set x => [x]
              | slot_unset => []
              end.

Definition set_success_prob (p : Q) (r : route) : route :=
  {| success_prob := p; hops := hops r |}.

Definition set_hops (hs : list route_hop) (r : route) : route :=
  {| success_prob := success_prob r; hops := hs |}.

(** How a function ends: at a [return], or in an access that the C code
    leaves undefined. *)
Inductive outcome (A : Type) :=
| defined (x : A)
| undefined.

Arguments defined {A} x.
Arguments undefined {A}.

(** ** Command results *)

(** An optional parameter is a pointer that [param] leaves [NULL] when the
    request does not supply it. *)
Definition non_null {A : Type} (p : option A) : bool :=
  match p with
  | Some _ => true
  | None => false
  end.

Inductive jsonrpc_errcode := PAY_ROUTE_NOT_FOUND | JSONRPC2_INVALID_PARAMS.

(** The text of a failure: a fixed string, or the formatted overflow report
    of [json_askrene_reserve] with the values it prints. *)
Inductive fail_msg :=
| msg_text (s : string)
| msg_overflow_reserving (num : nat) (scidd : Z * Z) (amount : Z)
    (already : option Z).

(** A call that adds to the response stream ([common/json_stream.h]). *)
Inductive json_call :=
| json_object_start (fieldname : string)
| json_object_end
| json_array_start (fieldname : string)
| json_array_end
| json_add_u64 (fieldname : string) (value : Z)
| json_add_u32 (fieldname : string) (value : Z)
| json_add_short_channel_id (fieldname : string) (scid : Z)
| json_add_node_id (fieldname : string) (id : node_id)
| json_add_amount_msat (fieldname : string) (amount : Z).

(** A response: the stream as [jsonrpc_stream_success] opens it, the calls
    of [json_getroutes] on it, or the constraint that
    [json_add_constraint] adds. *)
Inductive json_response :=
| resp_empty
| resp_stream (calls : list json_call)
| resp_constraint (layername : string) (scidd : Z * Z)
    (type : constraint_type) (c : constraint).

Inductive command_result :=
| command_param_failed
| command_fail (code : jsonrpc_errcode) (msg : fail_msg)
| command_check_done
| command_finished (response : json_response).

(** ** askrene.c *)

Section Askrene.
Context `{Fp16Codec}.

(** [get_capacities]: a zeroed array of [gossmap_max_chan_idx] entries, then
    one store per channel of the graph. A channel whose capacity cannot be
    read is logged and counts as 0 sat. *)
Fixpoint get_capacities_chans (cs : list gossmap_chan)
    (caps : list Z) : list Z :=
  match cs with
  | [] => caps
  | c :: cs' =>
      let cap := match gossmap_chan_get_capacity c with
                 | Some cap => cap
                 | None => 0
                 end in
      get_capacities_chans cs' (<[gossmap_chan_idx c := u64_to_fp16 cap true]> caps)
  end.

Definition get_capacities (g : gossmap) : list Z :=
  get_capacities_chans (gm_chans g) (replicate (gossmap_max_chan_idx g) 0).

(** One iteration of the loop over the requested layer names. *)
Definition get_routes_layer (a : askrene)
    (acc : list layer * gossmap_localmods * list Z)
    (name : string) : list layer * gossmap_localmods * list Z :=
  let '(ls, localmods, caps) := acc in
  match find_layer a name with
  | None => acc
  | Some l =>
      (ls ++ [l],
       layer_add_localmods l (a_gossmap a) localmods,
       layer_clear_overridden_capacities l (a_gossmap a) caps)
  end.

(** How [get_routes] ends: at its [return], with the error message
    ([None] for the C [NULL]) and the routes the caller receives; or in a
    store through a pointer that was never set. *)
Inductive get_routes_end :=
| end_return (err : option string) (routes : list route)
| end_undefined.

(** What [get_routes] leaves: the plugin state where it stops, the query
    context as it stands where the route finder is to run (after the
    overlay patch is applied), and how it ends. *)
Record get_routes_result := {
  gr_askrene : askrene;
  gr_rq : route_query;
  gr_end : get_routes_end
}.

(** The start of [get_routes]: the graph is refreshed in place and, when it
    advanced, the shared cache is rebuilt. *)
Definition get_routes_refresh (a : askrene) : askrene :=
  let '(g, changed) := gossmap_refresh (a_gossmap a) in
  {| a_layers := a_layers a;
     a_reserved := a_reserved a;
     a_gossmap := g;
     a_capacities := if changed then get_capacities g else a_capacities a |}.

Definition set_gossmap (a : askrene) (g : gossmap) : askrene :=
  {| a_layers := a_layers a;
     a_reserved := a_reserved a;
     a_gossmap := g;
     a_capacities := a_capacities a |}.

(** The dummy route of [get_routes]: the stores through element 0 of the
    routes array, first the probability, then the array of one hop with
    its five fields. *)
Definition get_routes_stub (routes : list (slot route)) (dest : node_id)
    (amount : Z) : option (list (slot route)) :=
  routes ← store_through routes 0 (set_success_prob 1%Q);
  store_through routes 0
    (set_hops [ {| rh_scid := 0x0000010000020003;
                   rh_direction := 0;
                   rh_node_id := dest;
                   rh_amount := amount;
                   rh_delay := 6 |} ]).

(** [get_routes]. The routes array comes from [tal_arr] and no statement
    stores a pointer in its element 0 before the dummy route is written
    through it. *)
Definition get_routes (a : askrene) (source dest : node_id) (amount : Z)
    (layers : list string) : get_routes_result :=
  let a := get_routes_refresh a in
  let '(rq_ls, localmods, caps) :=
    foldl (get_routes_layer a) ([], gossmap_localmods_new, a_capacities a)
          layers in
  let caps := reserves_clear_capacities (a_reserved a) (a_gossmap a) caps in
  let a := set_gossmap a (gossmap_apply_localmods (a_gossmap a) localmods) in
  let rq := {| rq_gossmap := a_gossmap a;
               rq_reserved := a_reserved a;
               rq_layers := rq_ls;
               rq_capacities := caps |} in
  match get_routes_stub (tal_arr 1) dest amount with
  | None => {| gr_askrene := a; gr_rq := rq; gr_end := end_undefined |}
  | Some routes =>
      let a :=
        set_gossmap a (gossmap_remove_localmods (a_gossmap a) localmods) in
      {| gr_askrene := a;
         gr_rq := rq;
         gr_end := end_return None (slot_values routes) |}
  end.

(** The body of the loop over [rq->layers] in [get_constraints]. *)
Definition constraints_layer (scidd : Z * Z) (acc : Z * Z)
    (l : layer) : Z * Z :=
  let '(min, max) := acc in
  let min :=
    match layer_find_constraint l scidd CONSTRAINT_MIN with
    | Some cmin =>
        if amount_msat_greater (c_limit cmin) min then c_limit cmin else min
    | None => min
    end in
  let max :=
    match layer_find_constraint l scidd CONSTRAINT_MAX with
    | Some cmax =>
        if amount_msat_less (c_limit cmax) max then c_limit cmax else max
    | None => max
    end in
  (min, max).

(** The capacity step: only when [max] still is [AMOUNT_MSAT(-1ULL)]; a
    missing capacity or one that does not fit is logged and leaves [max]. *)
Definition constraints_capacity (chan : gossmap_chan) (max : Z) : Z :=
  if amount_msat_eq max U64_MAX then
    match gossmap_chan_get_capacity chan with
    | Some cap =>
        match amount_sat_to_msat cap with
        | Some m => m
        | None => max
        end
    | None => max
    end
  else max.

(** The last step: subtract what is in use, clamping at 0. *)
Definition constraints_reserve (reserved : reserve_hash) (scidd : Z * Z)
    (acc : Z * Z) : Z * Z :=
  let '(min, max) := acc in
  match find_reserve reserved scidd with
  | Some reserve =>
      (default 0 (amount_msat_sub min (r_amount reserve)),
       default 0 (amount_msat_sub max (r_amount reserve)))
  | None => (min, max)
  end.

(** The window before the reservation step: the layer loop, then the
    capacity step. *)
Definition constraints_window (rq : route_query) (chan : gossmap_chan)
    (dir : Z) : Z * Z :=
  let scidd := (gossmap_chan_scid chan, dir) in
  let '(min, max) := foldl (constraints_layer scidd) (0, U64_MAX)
                           (rq_layers rq) in
  (min, constraints_capacity chan max).

(** Everything after the fast path. *)
Definition get_constraints_slow (rq : route_query) (chan : gossmap_chan)
    (dir : Z) : Z * Z :=
  constraints_reserve (rq_reserved rq) (gossmap_chan_scid chan, dir)
                      (constraints_window rq chan dir).

(** [get_constraints]: the pair written through [min] and [max]. *)
Definition get_constraints (rq : route_query) (chan : gossmap_chan)
    (dir : Z) : Z * Z :=
  let idx := gossmap_chan_idx chan in
  match rq_capacities rq !! idx with
  | Some cap =>
      if negb (cap =? 0)
      then (0, u64 (fp16_to_u64 cap * 1000))
      else get_constraints_slow rq chan dir
  | None => get_constraints_slow rq chan dir
  end.

(** The cast [(u64)(success_prob * 1000000)] truncates toward zero. *)
Definition probability_ppm (r : route) : Z :=
  let p := (success_prob r * 1000000)%Q in
  u64 (Z.quot (Qnum p) (Z.pos (Qden p))).

Record getroutes_params := {
  gp_source : node_id;
  gp_destination : node_id;
  gp_amount_msat : Z;
  gp_layers : list string
}.

(** The calls of [json_getroutes] on the response stream. It opens no
    object for a route and none for a hop. *)
Definition getroutes_stream (routes : list route) : list json_call :=
  [json_object_start "routes"; json_array_start "routes"]
  ++ (routes ≫= λ rt,
        [json_add_u64 "probability_ppm" (probability_ppm rt);
         json_array_start "path"]
        ++ (hops rt ≫= λ r,
              [json_add_short_channel_id "short_channel_id" (rh_scid r);
               json_add_u32 "direction" (rh_direction r);
               json_add_node_id "node_id" (rh_node_id r);
               json_add_amount_msat "amount" (rh_amount r);
               json_add_u32 "delay" (rh_delay r)])
        ++ [json_array_end])
  ++ [json_array_end; json_object_end].

(** [json_getroutes]; [params] is [None] when [param] rejects the request. *)
Definition json_getroutes (a : askrene) (params : option getroutes_params)
    : outcome (askrene * command_result) :=
  match params with
  | None => defined (a, command_param_failed)
  | Some p =>
      let r := get_routes a (gp_source p) (gp_destination p)
                          (gp_amount_msat p) (gp_layers p) in
      match gr_end r with
      | end_undefined => undefined
      | end_return (Some err) _ =>
          defined (gr_askrene r,
                   command_fail PAY_ROUTE_NOT_FOUND (msg_text err))
      | end_return None routes =>
          defined (gr_askrene r,
                   command_finished (resp_stream (getroutes_stream routes)))
      end
  end.

Record reserve_path := {
  rp_scidds : list (Z * Z);
  rp_amounts : list Z
}.

Definition set_reserved (a : askrene) (reserved : reserve_hash) : askrene :=
  {| a_layers := a_layers a;
     a_reserved := reserved;
     a_gossmap := a_gossmap a;
     a_capacities := a_capacities a |}.

(** [param_reserve_path]: the two arrays, one slot per element of the JSON
    array. *)
Definition param_reserve_path (entries : list ((Z * Z) * Z)) : reserve_path :=
  {| rp_scidds := entries.*1; rp_amounts := entries.*2 |}.

(** [json_askrene_reserve]; [params] is the parsed [path] array, [None] when
    [param] rejects the request. *)
Definition json_askrene_reserve (a : askrene)
    (params : option (list ((Z * Z) * Z))) : askrene * command_result :=
  match params with
  | None => (a, command_param_failed)
  | Some entries =>
      let path := param_reserve_path entries in
      let '(reserved, num) :=
        reserves_add (a_reserved a) (rp_scidds path) (rp_amounts path)
                     (length (rp_scidds path)) in
      let a := set_reserved a reserved in
      if bool_decide (num ≠ length (rp_scidds path)) then
        let r := find_reserve (a_reserved a) (rp_scidds path !!! num) in
        (a, command_fail JSONRPC2_INVALID_PARAMS
              (msg_overflow_reserving num (rp_scidds path !!! num)
                 (rp_amounts path !!! num) (r_amount <$> r)))
      else (a, command_finished resp_empty)
  end.

Record create_channel_params := {
  cc_layer : string;
  cc_source : node_id;
  cc_destination : node_id;
  cc_short_channel_id : Z;
  cc_capacity_msat : Z;
  cc_htlc_minimum_msat : Z;
  cc_htlc_maximum_msat : Z;
  cc_fee_base_msat : Z;
  cc_fee_proportional_millionths : Z;
  cc_delay : Z
}.

(** Whether an existing layer holds this scid with other endpoints or
    another capacity ("If it exists, it must match"). *)
Definition create_channel_conflict (a : askrene)
    (p : create_channel_params) : bool :=
  match find_layer a (cc_layer p) with
  | Some layer =>
      match layer_find_local_channel layer (cc_short_channel_id p) with
      | Some lc =>
          negb (layer_check_local_channel lc (cc_source p)
                  (cc_destination p) (cc_capacity_msat p))
      | None => false
      end
  | None => false
  end.

(** [json_askrene_create_channel]; [check_only] is [command_check_only]. *)
Definition json_askrene_create_channel (a : askrene) (check_only : bool)
    (params : option create_channel_params) : askrene * command_result :=
  match params with
  | None => (a, command_param_failed)
  | Some p =>
      if create_channel_conflict a p then
        (a, command_fail JSONRPC2_INVALID_PARAMS
              (msg_text "channel already exists with different values!"))
      else if check_only then (a, command_check_done)
      else
        let '(a, layer) :=
          match find_layer a (cc_layer p) with
          | Some layer => (a, layer)
          | None => new_layer a (cc_layer p)
          end in
        let layer :=
          layer_update_local_channel layer (cc_source p) (cc_destination p)
            (cc_short_channel_id p) (cc_capacity_msat p)
            (cc_fee_base_msat p) (cc_fee_proportional_millionths p)
            (cc_delay p) (cc_htlc_minimum_msat p)
            (cc_htlc_maximum_msat p) in
        (set_layer a (cc_layer p) layer, command_finished resp_empty)
  end.

Record inform_channel_params := {
  ic_layer : string;
  ic_short_channel_id : Z;
  ic_direction : Z;
  ic_minimum_msat : option Z;
  ic_maximum_msat : option Z
}.

(** [json_askrene_inform_channel]; [now] is [time_now().ts.tv_sec]. *)
Definition json_askrene_inform_channel (a : askrene) (check_only : bool)
    (now : Z) (params : option inform_channel_params)
    : askrene * command_result :=
  match params with
  | None => (a, command_param_failed)
  | Some p =>
      let min := ic_minimum_msat p in
      let max := ic_maximum_msat p in
      if (negb (non_null min) && negb (non_null max))
         || (non_null min && non_null max) then
        (a, command_fail JSONRPC2_INVALID_PARAMS
              (msg_text "Must specify exactly one of maximum_msat/minimum_msat"))
      else if check_only then (a, command_check_done)
      else
        let '(a, layer) :=
          match find_layer a (ic_layer p) with
          | Some layer => (a, layer)
          | None => new_layer a (ic_layer p)
          end in
        let scidd := (ic_short_channel_id p, ic_direction p) in
        let '(type, limit) :=
          match min with
          | Some m => (CONSTRAINT_MIN, m)
          | None => (CONSTRAINT_MAX, default 0 max)
          end in
        let '(layer, c) :=
          layer_update_constraint layer scidd type now limit in
        (set_layer a (ic_layer p) layer,
         command_finished (resp_constraint (ic_layer p) scidd type c))
  end.

End Askrene.

(** ** Reference definitions: what the specification says *)

(** "saturating subtraction (underflow → 0)". *)
Definition saturating_sub (a b : Z) : Z := Z.max 0 (a - b).

(** The capacity of a channel in millisatoshi, when it has one that fits. *)
Definition capacity_msat (chan : gossmap_chan) : option Z :=
  gossmap_chan_get_capacity chan ≫= amount_sat_to_msat.

(** The limits of the MIN, and of the MAX, constraints that the layers hold
    for a scidd. *)
Definition min_limits (ls : list layer) (scidd : Z * Z) : list Z :=
  omap (λ l, c_limit <$> layer_find_constraint l scidd CONSTRAINT_MIN) ls.

Definition max_limits (ls : list layer) (scidd : Z * Z) : list Z :=
  omap (λ l, c_limit <$> layer_find_constraint l scidd CONSTRAINT_MAX) ls.

(** "the maximum of 0 and all MIN-constraint limits". *)
Definition spec_effective_min (ls : list layer) (scidd : Z * Z) : Z :=
  foldr Z.max 0 (min_limits ls scidd).

(** "the minimum of all MAX-constraint limits (falling back to channel
    capacity when none apply)". *)
Definition spec_effective_max (ls : list layer) (scidd : Z * Z)
    (chan : gossmap_chan) : Z :=
  match max_limits ls scidd with
  | [] => default U64_MAX (capacity_msat chan)
  | limit :: limits => foldr Z.min limit limits
  end.

(** The same context with another list of selected layers. *)
Definition rq_with_layers (rq : route_query) (ls : list layer) : route_query :=
  {| rq_gossmap := rq_gossmap rq;
     rq_reserved := rq_reserved rq;
     rq_layers := ls;
     rq_capacities := rq_capacities rq |}.

Section Reference.
Context `{Fp16Codec}.


End Reference.

(** The specification's rounding of a probability to parts per million. *)
Definition round_ppm (p : Q) : Z := Qfloor (p * 1000000 + (1 # 2))%Q.

(** The fast path is not taken: the index is outside the cache, or the
    entry is the sentinel 0. *)
Definition slow_path (rq : route_query) (chan : gossmap_chan) : Prop :=
  rq_capacities rq !! gossmap_chan_idx chan = None
  ∨ rq_capacities rq !! gossmap_chan_idx chan = Some 0.

(** Each entry of [caps] is the entry of [caps0] or the sentinel 0: [caps]
    is [caps0] with some entries cleared. *)
Definition cleared_from (caps0 caps : list Z) : Prop :=
  length caps = length caps0
  ∧ ∀ i v, caps !! i = Some v → v = 0 ∨ caps0 !! i = Some v.

(** The scids whose cache entries a query clears: those of the constraints
    and local channels of the selected layers, then the reserved ones. *)
Definition cleared_scids (ls : list layer)
    (reserved : reserve_hash) : list Z :=
  (ls ≫= λ l, (map_to_list (l_constraints l)).*1.*1.*1
              ++ (map_to_list (l_local_channels l)).*1)
  ++ (map_to_list reserved).*1.*1.

(** The amount, and the number of HTLCs, reserved on a scidd (0 when the
    table has no record). *)
Definition reserved_amount (reserved : reserve_hash) (scidd : Z * Z) : Z :=
  default 0 (r_amount <$> reserved !! scidd).

Definition reserved_htlcs (reserved : reserve_hash) (scidd : Z * Z) : Z :=
  default 0 (r_num_htlcs <$> reserved !! scidd).

(** What the entries of a path ask for on a scidd, and how many of them
    name it. *)
Definition path_amount (entries : list ((Z * Z) * Z)) (scidd : Z * Z) : Z :=
  foldr (λ e acc, if decide (e.1 = scidd) then e.2 + acc else acc) 0 entries.

Definition path_count (entries : list ((Z * Z) * Z)) (scidd : Z * Z) : Z :=
  foldr (λ e acc, if decide (e.1 = scidd) then 1 + acc else acc) 0 entries.

(** The constraint, and the local channel, that the store holds under a
    layer name. *)
Definition askrene_constraint (a : askrene) (name : string) (scidd : Z * Z)
    (type : constraint_type) : option constraint :=
  find_layer a name ≫= λ l, layer_find_constraint l scidd type.

Definition askrene_local_channel (a : askrene) (name : string)
    (scid : Z) : option local_channel :=
  find_layer a name ≫= λ l, layer_find_local_channel l scid.

(** The local channel a create-channel request describes. *)
Definition requested_channel (p : create_channel_params) : local_channel :=
  {| lc_n1 := cc_source p; lc_n2 := cc_destination p;
     lc_capacity := cc_capacity_msat p;
     lc_half := {| hc_enabled := true;
                   hc_base_fee := cc_fee_base_msat p;
                   hc_proportional_fee := cc_fee_proportional_millionths p;
                   hc_delay := cc_delay p;
                   hc_htlc_min := cc_htlc_minimum_msat p;
                   hc_htlc_max := cc_htlc_maximum_msat p |} |}.

(** "structurally match (endpoints and capacity)". *)
Definition channel_matches (lc : local_channel)
    (p : create_channel_params) : Prop :=
  lc_n1 lc = cc_source p ∧ lc_n2 lc = cc_destination p
  ∧ lc_capacity lc = cc_capacity_msat p.

(** What an inform-channel request that is carried out with exactly one
    limit does to the state [a], giving [a'] and [result]: the constraint
    of that kind holds the limit and the time of the request; no other
    constraint, no local channel, no reservation and nothing of the graph
    changes. *)
Definition informed (a a' : askrene) (result : command_result) (now : Z)
    (p : inform_channel_params) (type : constraint_type) (limit : Z) : Prop :=
  let scidd := (ic_short_channel_id p, ic_direction p) in
  (∀ name scidd' type',
      (name, scidd', type') ≠ (ic_layer p, scidd, type) →
      askrene_constraint a' name scidd' type'
      = askrene_constraint a name scidd' type')
  ∧ (∀ name scid,
        askrene_local_channel a' name scid = askrene_local_channel a name scid)
  ∧ a_reserved a' = a_reserved a
  ∧ a_gossmap a' = a_gossmap a
  ∧ askrene_constraint a' (ic_layer p) scidd type
    = Some {| c_limit := limit; c_timestamp := now |}
  ∧ result = command_finished
               (resp_constraint (ic_layer p) scidd type
                  {| c_limit := limit; c_timestamp := now |}).

(** What a create-channel request that is carried out does: the layer
    exists afterwards and holds the requested channel under the scid; no
    other local channel and no constraint changes. *)
Definition created (a a' : askrene) (result : command_result)
    (p : create_channel_params) : Prop :=
  result = command_finished resp_empty
  ∧ is_Some (find_layer a' (cc_layer p))
  ∧ askrene_local_channel a' (cc_layer p) (cc_short_channel_id p)
    = Some (requested_channel p)
  ∧ (∀ name scid,
        (name, scid) ≠ (cc_layer p, cc_short_channel_id p) →
        askrene_local_channel a' name scid = askrene_local_channel a name scid)
  ∧ (∀ name scidd type,
        askrene_constraint a' name scidd type
        = askrene_constraint a name scidd type).

(** ** Sample data *)

Definition sample_half : half_chan :=
  {| hc_enabled := true; hc_base_fee := 1000; hc_proportional_fee := 10;
     hc_delay := 6; hc_htlc_min := 0; hc_htlc_max := 1000000000 |}.

Definition sample_chan_at (idx : nat) (scid : Z)
    (capacity : option Z) : gossmap_chan :=
  {| chan_scid := scid; chan_idx := idx; chan_node1 := 2; chan_node2 := 3;
     chan_capacity := capacity;
     chan_half0 := sample_half; chan_half1 := sample_half |}.

(** A public channel with index 0. *)
Definition sample_chan (scid : Z) (capacity : option Z) : gossmap_chan :=
  sample_chan_at 0 scid capacity.

Definition sample_rq (caps : list Z) (ls : list layer)
    (reserved : reserve_hash) (chan : gossmap_chan) : route_query :=
  {| rq_gossmap := {| gm_chans := [chan]; gm_unread := []; gm_saved := None |};
     rq_reserved := reserved;
     rq_layers := ls;
     rq_capacities := caps |}.

Definition sample_reserved (scidd : Z * Z) (amount : Z) : reserve_hash :=
  {[ scidd := {| r_amount := amount; r_num_htlcs := 1 |} ]}.

Definition sample_layer (name : string)
    (cs : list (Z * Z * constraint_type * Z)) : layer :=
  {| l_name := name;
     l_local_channels := ∅;
     l_constraints :=
       list_to_map ((λ p, (p.1, {| c_limit := p.2; c_timestamp := 1000 |}))
                      <$> cs);
     l_disabled_nodes := [] |}.

(** A plugin state as [init] leaves it: the cache built from the graph. *)
Definition sample_askrene (chans unread : list gossmap_chan)
    (layers : gmap string layer) (reserved : reserve_hash) : askrene :=
  let g := {| gm_chans := chans; gm_unread := unread; gm_saved := None |} in
  {| a_layers := layers; a_reserved := reserved; a_gossmap := g;
     a_capacities := @get_capacities common_fp16 g |}.

Definition sample_getroutes : getroutes_params :=
  {| gp_source := 2; gp_destination := 3; gp_amount_msat := 500000000;
     gp_layers := [] |}.

Definition sample_inform (minimum maximum : option Z) : inform_channel_params :=
  {| ic_layer := "l"; ic_short_channel_id := 2; ic_direction := 1;
     ic_minimum_msat := minimum; ic_maximum_msat := maximum |}.

Definition sample_create (capacity : Z) : create_channel_params :=
  {| cc_layer := "l"; cc_source := 2; cc_destination := 3;
     cc_short_channel_id := 5; cc_capacity_msat := capacity;
     cc_htlc_minimum_msat := 0; cc_htlc_maximum_msat := capacity;
     cc_fee_base_msat := 1000; cc_fee_proportional_millionths := 10;
     cc_delay := 6 |}.

(** * The rest of askrene.c *)

(** ** JSON parameters *)

(** A JSON value as its jsmn tokens describe it: the type of the token, and
    the text of a leaf or the children of a container. *)
#[local] Set Warnings "-register-all".
Inductive jsmntok :=
| JSMN_PRIMITIVE (text : string)
| JSMN_STRING (text : string)
| JSMN_ARRAY (elems : list jsmntok)
| JSMN_OBJECT (members : list (string * jsmntok)).

(** What [command_fail_badparam] reports: the parameter, the offending
    token and the complaint. *)
Record badparam := {
  bp_name : string;
  bp_tok : jsmntok;
  bp_msg : string
}.

(** The loop of [param_string_array] over the elements of the array. *)
Fixpoint param_string_array_elems (name : string)
    (ts : list jsmntok) : badparam + list string :=
  match ts with
  | [] => inr []
  | t :: ts' =>
      match t with
      | JSMN_STRING s =>
          match param_string_array_elems name ts' with
          | inl bad => inl bad
          | inr arr => inr (s :: arr)
          end
      | _ => inl {| bp_name := name; bp_tok := t;
                    bp_msg := "should be a string" |}
      end
  end.

(** [param_string_array]. *)
Definition param_string_array (name : string)
    (tok : jsmntok) : badparam + list string :=
  match tok with
  | JSMN_ARRAY ts => param_string_array_elems name ts
  | _ => inl {| bp_name := name; bp_tok := tok;
                bp_msg := "should be an array" |}
  end.

(** [param_known_layer], given the layer name that [param_string] copied
    out of the token. *)
Definition param_known_layer (a : askrene) (name : string) (tok : jsmntok)
    (layername : string) : badparam + layer :=
  match find_layer a layername with
  | Some layer => inr layer
  | None => inl {| bp_name := name; bp_tok := tok;
                   bp_msg := "Unknown layer" |}
  end.

(** The parsers of [common/json_parse.c] and [json_scan] are not among the
    sources: they are an interface. [json_scan] receives the token, the
    guide and the parsers of the guide's slots, and returns an error text
    or the values the parsers stored. *)
Class JsonParsers := {
  json_to_u32 : jsmntok → option Z;
  json_to_short_channel_id : jsmntok → option Z;
  json_to_msat : jsmntok → option Z;
  json_scan : jsmntok → string → list (jsmntok → option Z) → string + list Z
}.

(** What the code relies on from [json_scan]: every value it returns was
    accepted by the parser of its slot. *)
Definition json_scan_stores_parsed `{JsonParsers} : Prop :=
  ∀ tok guide parsers values,
    json_scan tok guide parsers = inr values →
    Forall2 (λ parser value, ∃ t, parser t = Some value) parsers values.

Section Parsers.
Context `{JsonParsers}.

(** [json_to_zero_or_one]. *)
Definition json_to_zero_or_one (tok : jsmntok) : option Z :=
  match json_to_u32 tok with
  | None => None
  | Some v32 =>
      if negb (v32 =? 0) && negb (v32 =? 1) then None else Some v32
  end.

(** [param_zero_or_one]. *)
Definition param_zero_or_one (name : string) (tok : jsmntok) : badparam + Z :=
  match json_to_zero_or_one tok with
  | Some num => inr num
  | None => inl {| bp_name := name; bp_tok := tok;
                   bp_msg := "should be 0 or 1" |}
  end.

(** [parse_reserve_path]: one element of the path. A scan that succeeds
    without filling the three slots has no counterpart in the code; the
    model reports it as a failure of the scan. *)
Definition parse_reserve_path (name : string)
    (tok : jsmntok) : badparam + ((Z * Z) * Z) :=
  match json_scan tok "{short_channel_id:%,direction:%,amount_msat:%s}"
                  [json_to_short_channel_id; json_to_zero_or_one;
                   json_to_msat] with
  | inl err => inl {| bp_name := name; bp_tok := tok; bp_msg := err |}
  | inr [scid; dir; amount] => inr ((scid, dir), amount)
  | inr _ => inl {| bp_name := name; bp_tok := tok; bp_msg := EmptyString |}
  end.

(** The loop of [param_reserve_path] over the elements of the array. *)
Fixpoint param_reserve_path_elems (name : string)
    (ts : list jsmntok) : badparam + list ((Z * Z) * Z) :=
  match ts with
  | [] => inr []
  | t :: ts' =>
      match parse_reserve_path name t with
      | inl bad => inl bad
      | inr entry =>
          match param_reserve_path_elems name ts' with
          | inl bad => inl bad
          | inr entries => inr (entry :: entries)
          end
      end
  end.

(** [param_reserve_path] on the token of the parameter: the array check and
    the loop, then the two arrays as [param_reserve_path] above fills
    them. *)
Definition param_reserve_path_tok (name : string)
    (tok : jsmntok) : badparam + reserve_path :=
  match tok with
  | JSMN_ARRAY ts =>
      match param_reserve_path_elems name ts with
      | inl bad => inl bad
      | inr entries => inr (param_reserve_path entries)
      end
  | _ => inl {| bp_name := name; bp_tok := tok;
                bp_msg := "should be an array" |}
  end.

End Parsers.

(** ** The other commands *)

(** Modelled from the spec: one entry of [reserves_remove]
    ([plugins/askrene/reserve.c] is not among the sources). "symmetric;
    underflow (removing more than is reserved) stops at that index"; "each
    remove decrements num_htlcs"; "decrementing below zero is a protocol
    error (underflow)": the entry fails when the scidd has no record, when
    the record holds less than the amount, and when it counts no HTLC.
    "num_htlcs == 0 ⇔ record absent": the record leaves the table when
    its count reaches 0. *)
Definition reserve_remove_one (reserved : reserve_hash) (scidd : Z * Z)
    (amount : Z) : option reserve_hash :=
  match reserved !! scidd with
  | None => None
  | Some r =>
      match amount_msat_sub (r_amount r) amount with
      | None => None
      | Some rest =>
          if r_num_htlcs r <? 1 then None
          else if r_num_htlcs r - 1 =? 0 then Some (delete scidd reserved)
          else Some (<[scidd := {| r_amount := rest;
                                   r_num_htlcs := r_num_htlcs r - 1 |}]>
                       reserved)
      end
  end.

(** Modelled from the spec: the loop of [reserves_remove] from index [i]
    on. *)
Fixpoint reserves_remove_from (reserved : reserve_hash)
    (path : list ((Z * Z) * Z)) (i : nat) : reserve_hash * nat :=
  match path with
  | [] => (reserved, i)
  | (scidd, amount) :: rest =>
      match reserve_remove_one reserved scidd amount with
      | None => (reserved, i)
      | Some reserved' => reserves_remove_from reserved' rest (S i)
      end
  end.

Definition reserves_remove (reserved : reserve_hash) (scidds : list (Z * Z))
    (amounts : list Z) (num : nat) : reserve_hash * nat :=
  reserves_remove_from reserved (take num (zip scidds amounts)) 0.

(** Modelled from the spec: [layer_add_disabled_node]
    ([plugins/askrene/layer.c] is not among the sources). "adds node to
    layer's disabled set. Idempotent." *)
Definition layer_add_disabled_node (l : layer) (node : node_id) : layer :=
  {| l_name := l_name l;
     l_local_channels := l_local_channels l;
     l_constraints := l_constraints l;
     l_disabled_nodes :=
       if bool_decide (node ∈ l_disabled_nodes l) then l_disabled_nodes l
       else l_disabled_nodes l ++ [node] |}.

(** Modelled from the spec: [layer_trim_constraints]. "drop all
    constraints with timestamp_sec < cutoff_ts; returns how many were
    removed". *)
Definition layer_trim_constraints (l : layer) (cutoff : Z) : layer * nat :=
  let kept := filter (λ kc, cutoff ≤ c_timestamp kc.2) (l_constraints l) in
  ({| l_name := l_name l;
      l_local_channels := l_local_channels l;
      l_constraints := kept;
      l_disabled_nodes := l_disabled_nodes l |},
   size (l_constraints l) - size kept)%nat.

(** Modelled from the spec: [json_add_layers]. "returns all layers, or a
    single named one if given". *)
Definition json_add_layers (a : askrene)
    (layername : option string) : list (string * layer) :=
  match layername with
  | None => map_to_list (a_layers a)
  | Some name =>
      match find_layer a name with
      | Some l => [(name, l)]
      | None => []
      end
  end.

(** What the other commands answer: a result of the commands above, the
    complaint of a parameter parser, the underflow report of
    [json_askrene_unreserve] with the values it prints, the listing of
    [json_askrene_listlayers], or the count of [json_askrene_age]. *)
Inductive reply :=
| reply_result (r : command_result)
| reply_badparam (name : string) (msg : string)
| reply_underflow (num : nat) (scidd : Z * Z) (amount : Z) (num_htlcs : Z)
    (reserved : option Z)
| reply_layers (layers : list (string * layer))
| reply_age (layer : string) (num_removed : nat).

(** [json_askrene_unreserve]. *)
Definition json_askrene_unreserve (a : askrene)
    (params : option (list ((Z * Z) * Z))) : askrene * reply :=
  match params with
  | None => (a, reply_result command_param_failed)
  | Some entries =>
      let path := param_reserve_path entries in
      let '(reserved, num) :=
        reserves_remove (a_reserved a) (rp_scidds path) (rp_amounts path)
                        (length (rp_scidds path)) in
      let a := set_reserved a reserved in
      if bool_decide (num ≠ length (rp_scidds path)) then
        let r := find_reserve (a_reserved a) (rp_scidds path !!! num) in
        (a, reply_underflow num (rp_scidds path !!! num)
              (rp_amounts path !!! num)
              (match r with Some r => r_num_htlcs r | None => 0 end)
              (r_amount <$> r))
      else (a, reply_result (command_finished resp_empty))
  end.

(** [json_askrene_disable_node]. *)
Definition json_askrene_disable_node (a : askrene)
    (params : option (string * node_id)) : askrene * reply :=
  match params with
  | None => (a, reply_result command_param_failed)
  | Some (layername, node) =>
      let '(a, layer) :=
        match find_layer a layername with
        | Some layer => (a, layer)
        | None => new_layer a layername
        end in
      (set_layer a layername (layer_add_disabled_node layer node),
       reply_result (command_finished resp_empty))
  end.

(** [json_askrene_listlayers]. *)
Definition json_askrene_listlayers (a : askrene)
    (params : option (option string)) : askrene * reply :=
  match params with
  | None => (a, reply_result command_param_failed)
  | Some layername => (a, reply_layers (json_add_layers a layername))
  end.

(** [json_askrene_age]; the parameters are the layer token with the name
    [param_string] copied out of it, and the cutoff. *)
Definition json_askrene_age (a : askrene)
    (params : option (jsmntok * string * Z)) : askrene * reply :=
  match params with
  | None => (a, reply_result command_param_failed)
  | Some (tok, layername, cutoff) =>
      match param_known_layer a "layer" tok layername with
      | inl bad => (a, reply_badparam (bp_name bad) (bp_msg bad))
      | inr layer =>
          let '(layer, num_removed) := layer_trim_constraints layer cutoff in
          (set_layer a layername layer,
           reply_age (l_name layer) num_removed)
      end
  end.

(** A request to one of the eight entries of [commands], with the
    parameters its handler receives. *)
Inductive request :=
| req_getroutes (params : option getroutes_params)
| req_reserve (params : option (list ((Z * Z) * Z)))
| req_unreserve (params : option (list ((Z * Z) * Z)))
| req_disable_node (params : option (string * node_id))
| req_create_channel (check_only : bool)
    (params : option create_channel_params)
| req_inform_channel (check_only : bool) (now : Z)
    (params : option inform_channel_params)
| req_listlayers (params : option (option string))
| req_age (params : option (jsmntok * string * Z)).

(** The handler that [commands] names for each request. *)
Definition handle `{Fp16Codec} (a : askrene)
    (req : request) : outcome (askrene * reply) :=
  match req with
  | req_getroutes params =>
      match json_getroutes a params with
      | defined r => defined (r.1, reply_result r.2)
      | undefined => undefined
      end
  | req_reserve params =>
      let r := json_askrene_reserve a params in
      defined (r.1, reply_result r.2)
  | req_unreserve params => defined (json_askrene_unreserve a params)
  | req_disable_node params => defined (json_askrene_disable_node a params)
  | req_create_channel check_only params =>
      let r := json_askrene_create_channel a check_only params in
      defined (r.1, reply_result r.2)
  | req_inform_channel check_only now params =>
      let r := json_askrene_inform_channel a check_only now params in
      defined (r.1, reply_result r.2)
  | req_listlayers params => defined (json_askrene_listlayers a params)
  | req_age params => defined (json_askrene_age a params)
  end.

(** ** Reference definitions for the other commands *)

(** A reply that reports success: [command_finished] with its response. *)
Definition succeeded (r : reply) : bool :=
  match r with
  | reply_result (command_finished _) => true
  | reply_layers _ => true
  | reply_age _ _ => true
  | _ => false
  end.

(** The layer that a request creates when it is absent: the requests that
    reach [new_layer]. *)
Definition request_layer (req : request) : option string :=
  match req with
  | req_disable_node (Some (layername, _)) => Some layername
  | req_create_channel false (Some p) => Some (cc_layer p)
  | req_inform_channel false _ (Some p) => Some (ic_layer p)
  | _ => None
  end.

(** The part of [struct askrene] that the handler of a request writes to:
    the layers, the reservation table, or the graph with its capacity
    cache. *)
Inductive part := part_layers | part_reserved | part_graph | part_none.

Definition request_part (req : request) : part :=
  match req with
  | req_getroutes _ => part_graph
  | req_reserve _ | req_unreserve _ => part_reserved
  | req_disable_node _ | req_create_channel _ _ | req_inform_channel _ _ _
  | req_age _ => part_layers
  | req_listlayers _ => part_none
  end.

(** What the removal of entries does to the record of one scidd, given
    the amount and the number of the entries that name it ([named]: some
    entry does). The record is left with so much less; it leaves the table
    when its HTLC count is used up; a scidd without a record is named by
    no entry that is applied. *)
Definition unreserved (before after : option reserve) (amount count : Z)
    (named : Prop) : Prop :=
  match before, after with
  | Some r, Some r' =>
      r_amount r' = r_amount r - amount
      ∧ r_num_htlcs r' = r_num_htlcs r - count
      ∧ (named → 1 ≤ r_num_htlcs r' ∧ 0 ≤ r_amount r')
  | Some r, None =>
      named ∧ r_num_htlcs r = count ∧ amount ≤ r_amount r
  | None, None => ¬ named
  | None, Some _ => False
  end.

(** ** Sample parsers *)

(** A number in decimal digits. *)
Fixpoint sample_decimal (s : string) (acc : Z) : option Z :=
  match s with
  | EmptyString => Some acc
  | String c s' =>
      let d := Z.of_nat (Ascii.nat_of_ascii c) - 48 in
      if (0 <=? d) && (d <=? 9) then sample_decimal s' (10 * acc + d)
      else None
  end.

Definition sample_json_to_number (tok : jsmntok) : option Z :=
  match tok with
  | JSMN_PRIMITIVE (String c s) => sample_decimal (String c s) 0
  | _ => None
  end.

(** A scan of an object that holds one member per slot, in the order of
    the slots. *)
Definition sample_json_scan (tok : jsmntok) (guide : string)
    (parsers : list (jsmntok → option Z)) : string + list Z :=
  match tok with
  | JSMN_OBJECT members =>
      if bool_decide (length members = length parsers) then
        match mapM (λ pm : (jsmntok → option Z) * (string * jsmntok),
                      pm.1 pm.2.2) (zip parsers members) with
        | Some values => inr values
        | None => inl "parse failed"%string
        end
      else inl "missing member"%string
  | _ => inl "not an object"%string
  end.

Definition sample_reserve_entry (scid dir amount : string) : jsmntok :=
  JSMN_OBJECT [("short_channel_id"%string, JSMN_PRIMITIVE scid);
               ("direction"%string, JSMN_PRIMITIVE dir);
               ("amount_msat"%string, JSMN_PRIMITIVE amount)].

Definition sample_parsers : JsonParsers :=
  {| json_to_u32 := sample_json_to_number;
     json_to_short_channel_id := sample_json_to_number;
     json_to_msat := sample_json_to_number;
     json_scan := sample_json_scan |}.

(** A maximum for channel 7 in direction 0, on layer "l". *)
Definition sample_inform_max (limit : Z) : inform_channel_params :=
  {| ic_layer := "l"; ic_short_channel_id := 7; ic_direction := 0;
     ic_minimum_msat := None; ic_maximum_msat := Some limit |}.

(** * Properties *)

(** ** Arithmetic of amounts *)

Lemma amount_msat_sub_saturating (a b : Z) :
  default 0 (amount_msat_sub a b) = saturating_sub a b.
Proof.
  unfold amount_msat_sub, saturating_sub.
  destruct (Z.ltb_spec a b); simpl; lia.
Qed.


Lemma foldr_max_init (m x : Z) (l : list Z) :
  foldr Z.max (Z.max m x) l = Z.max x (foldr Z.max m l).
Proof. induction l as [|y l IH]; simpl; [lia | rewrite IH; lia]. Qed.

Lemma foldr_min_init (m x : Z) (l : list Z) :
  foldr Z.min (Z.min m x) l = Z.min x (foldr Z.min m l).
Proof. induction l as [|y l IH]; simpl; [lia | rewrite IH; lia]. Qed.

Lemma foldr_max_perm (m : Z) (l1 l2 : list Z) :
  l1 ≡ₚ l2 → foldr Z.max m l1 = foldr Z.max m l2.
Proof.
  intros Hp. apply (foldr_permutation eq Z.max m); [|done].
  intros; lia.
Qed.

Lemma foldr_min_perm (m : Z) (l1 l2 : list Z) :
  l1 ≡ₚ l2 → foldr Z.min m l1 = foldr Z.min m l2.
Proof.
  intros Hp. apply (foldr_permutation eq Z.min m); [|done].
  intros; lia.
Qed.

(** ** The fp16 codec *)

(** A code with exponent [e] and mantissa [m] expands to [m] shifted left
    by [e]. *)
Lemma common_fp16_decode (e m : Z) :
  0 ≤ e → 0 ≤ m < 2 ^ 11 →
  common_fp16_to_u64 (Z.lor (Z.shiftl e 11) m) = m * 2 ^ e.
Proof.
  intros He Hm. unfold common_fp16_to_u64.
  change (2 ^ 11 - 1) with (Z.ones 11).
  rewrite Z.land_lor_distr_l.
  rewrite (Z.land_ones (Z.shiftl e 11) 11), (Z.land_ones m 11) by lia.
  rewrite (Z.shiftl_mul_pow2 e 11) by lia.
  rewrite Z.mod_mul by lia. rewrite (Z.mod_small m) by lia.
  rewrite Z.lor_0_l.
  rewrite Z.shiftr_lor.
  rewrite (Z.shiftr_div_pow2 (e * 2 ^ 11) 11), (Z.shiftr_div_pow2 m 11)
    by lia.
  rewrite Z.div_mul by lia. rewrite (Z.div_small m) by lia.
  rewrite Z.lor_0_r. by rewrite Z.shiftl_mul_pow2.
Qed.

(** A value below 2^11 is stored as it is. *)
Lemma common_fp16_exact (val : Z) (round_up : bool) :
  0 ≤ val < 2 ^ 11 →
  common_fp16_to_u64 (common_u64_to_fp16 val round_up) = val.
Proof.
  intros Hval. unfold common_u64_to_fp16.
  destruct (Z.eqb_spec val 0) as [->|Hnz]; [done|].
  assert (Z.log2 val < 11) by (apply Z.log2_lt_pow2; lia).
  destruct (Z.ltb_spec 11 (Z.log2 val + 1)); [lia|].
  rewrite (common_fp16_decode 0 val) by lia. lia.
Qed.

(** Compression with rounding up never loses value, up to the largest
    value the format holds. *)
Lemma common_fp16_round_up (val : Z) :
  0 ≤ val ≤ (2 ^ 11 - 1) * 2 ^ 31 →
  val ≤ common_fp16_to_u64 (common_u64_to_fp16 val true)
      ≤ (2 ^ 11 - 1) * 2 ^ 31.
Proof.
  intros Hval.
  destruct (Z.lt_ge_cases val (2 ^ 11)) as [Hsmall|Hbig].
  { rewrite common_fp16_exact by lia. lia. }
  unfold common_u64_to_fp16.
  destruct (Z.eqb_spec val 0) as [->|Hnz]; [lia|].
  pose proof (Z.log2_spec val ltac:(lia)) as [Hlo Hhi].
  assert (Hn : 11 ≤ Z.log2 val) by (apply Z.log2_le_pow2; lia).
  assert (Hn' : Z.log2 val < 42).
  { apply Z.log2_lt_pow2; [lia|]. lia. }
  destruct (Z.ltb_spec 11 (Z.log2 val + 1)); [|lia].
  set (e := Z.log2 val + 1 - 11) in *.
  assert (He : 1 ≤ e ≤ 31) by lia.
  rewrite Z.shiftr_div_pow2 by lia.
  replace (2 ^ e - 1) with (Z.ones e)
    by (rewrite Z.ones_equiv; lia).
  rewrite Z.land_ones by lia.
  assert (Hpow : 0 < 2 ^ e) by (apply Z.pow_pos_nonneg; lia).
  assert (Hpow31 : 2 ^ e ≤ 2 ^ 31) by (apply Z.pow_le_mono_r; lia).
  pose proof (Z.div_mod val (2 ^ e) ltac:(lia)) as Hdm.
  pose proof (Z.mod_pos_bound val (2 ^ e) Hpow) as Hr.
  set (m := val / 2 ^ e) in *. set (r := val mod 2 ^ e) in *.
  assert (Hsucc : 2 ^ (Z.log2 val + 1) = 2 ^ 11 * 2 ^ e).
  { unfold e. rewrite <- Z.pow_add_r by lia. f_equal. lia. }
  assert (Hpred : 2 ^ Z.log2 val = 2 ^ 10 * 2 ^ e).
  { unfold e. rewrite <- Z.pow_add_r by lia. f_equal. lia. }
  assert (Hm : 2 ^ 10 ≤ m < 2 ^ 11) by nia.
  simpl andb.
  destruct (Z.eqb_spec r 0) as [Hr0|Hr0]; simpl negb; cbv iota.
  - destruct (Z.leb_spec 32 e); [lia|].
    rewrite common_fp16_decode by lia. lia.
  - destruct (Z.eqb_spec (m + 1) (2 ^ 11)) as [Hm1|Hm1].
    + assert (e ≤ 30).
      { destruct (decide (e = 31)) as [->|]; [|lia]. exfalso. nia. }
      destruct (Z.leb_spec 32 (e + 1)); [lia|].
      rewrite Hm1. change (Z.shiftr (2 ^ 11) 1) with (2 ^ 10).
      rewrite common_fp16_decode by lia.
      assert (2 ^ (e + 1) ≤ 2 ^ 31) by (apply Z.pow_le_mono_r; lia).
      rewrite Z.pow_add_r in * by lia. nia.
    + destruct (Z.leb_spec 32 e); [lia|].
      rewrite common_fp16_decode by lia. nia.
Qed.

(** ** The layer loop of [get_constraints] *)

(** The loop computes a running maximum of the MIN limits and a running
    minimum of the MAX limits. *)
Lemma constraints_layer_fold (scidd : Z * Z) (ls : list layer) (min max : Z) :
  foldl (constraints_layer scidd) (min, max) ls
  = (foldr Z.max min (min_limits ls scidd),
     foldr Z.min max (max_limits ls scidd)).
Proof.
  revert min max. induction ls as [|l ls IH]; intros min max; [done|].
  simpl. unfold min_limits, max_limits in *. simpl.
  unfold amount_msat_greater, amount_msat_less.
  destruct (layer_find_constraint l scidd CONSTRAINT_MIN) as [cmin|];
    destruct (layer_find_constraint l scidd CONSTRAINT_MAX) as [cmax|];
    simpl; repeat case_match; rewrite IH; f_equal;
    rewrite <- ?foldr_max_init, <- ?foldr_min_init; f_equal; lia.
Qed.

Lemma constraints_capacity_eq (chan : gossmap_chan) (max : Z) :
  constraints_capacity chan max
  = if max =? U64_MAX then default max (capacity_msat chan) else max.
Proof.
  unfold constraints_capacity, capacity_msat, amount_msat_eq.
  destruct (max =? U64_MAX); [|done].
  destruct (gossmap_chan_get_capacity chan) as [cap|]; [|done]. simpl.
  by destruct (amount_sat_to_msat cap).
Qed.

Lemma constraints_window_eq (rq : route_query) (chan : gossmap_chan) (dir : Z) :
  constraints_window rq chan dir
  = (foldr Z.max 0 (min_limits (rq_layers rq) (gossmap_chan_scid chan, dir)),
     constraints_capacity chan
       (foldr Z.min U64_MAX
              (max_limits (rq_layers rq) (gossmap_chan_scid chan, dir)))).
Proof. unfold constraints_window. by rewrite constraints_layer_fold. Qed.

Lemma constraints_window_perm (rq : route_query) (ls : list layer)
    (chan : gossmap_chan) (dir : Z) :
  ls ≡ₚ rq_layers rq →
  constraints_window (rq_with_layers rq ls) chan dir
  = constraints_window rq chan dir.
Proof.
  intros Hp. rewrite !constraints_window_eq. simpl.
  unfold min_limits, max_limits.
  f_equal; [|f_equal]; [apply foldr_max_perm | apply foldr_min_perm];
    by apply omap_Permutation.
Qed.

Lemma constraints_reserve_eq (reserved : reserve_hash) (scidd : Z * Z)
    (min max : Z) :
  constraints_reserve reserved scidd (min, max)
  = match find_reserve reserved scidd with
    | Some reserve => (saturating_sub min (r_amount reserve),
                       saturating_sub max (r_amount reserve))
    | None => (min, max)
    end.
Proof.
  unfold constraints_reserve.
  destruct (find_reserve reserved scidd); [|done].
  by rewrite !amount_msat_sub_saturating.
Qed.

Section Constraints.
Context `{Fp16Codec}.

Lemma get_constraints_slow_path (rq : route_query) (chan : gossmap_chan)
    (dir : Z) :
  slow_path rq chan →
  get_constraints rq chan dir = get_constraints_slow rq chan dir.
Proof. unfold get_constraints. by intros [-> | ->]. Qed.

Lemma get_constraints_fast (rq : route_query) (chan : gossmap_chan)
    (dir cap : Z) :
  rq_capacities rq !! gossmap_chan_idx chan = Some cap → cap ≠ 0 →
  get_constraints rq chan dir = (0, u64 (fp16_to_u64 cap * 1000)).
Proof.
  intros Hcap Hnz. unfold get_constraints. rewrite Hcap.
  destruct (Z.eqb_spec cap 0); [done|]. done.
Qed.

(** C6, as amended. On the slow path the window before the reservation
    step has, as its minimum, the maximum of 0 and all MIN limits of the
    selected layers for the scidd; its maximum is the minimum [m] of
    2^64-1 and all MAX limits, replaced by the channel capacity in msat
    (when the channel has one that fits) exactly when [m] is 2^64-1. That
    is the minimum of the MAX limits, falling back to the capacity when
    there is none, provided every MAX limit is below 2^64-1. The result of
    [get_constraints] is the same for every permutation of the selected
    layers. *)
Theorem constraints_window_aggregates (rq : route_query)
    (chan : gossmap_chan) (dir : Z) (ls : list layer) :
  ls ≡ₚ rq_layers rq →
  let scidd := (gossmap_chan_scid chan, dir) in
  let m := foldr Z.min U64_MAX (max_limits (rq_layers rq) scidd) in
  (slow_path rq chan →
   get_constraints rq chan dir
   = constraints_reserve (rq_reserved rq) scidd
                         (constraints_window rq chan dir))
  ∧ constraints_window rq chan dir
    = (spec_effective_min (rq_layers rq) scidd,
       if m =? U64_MAX then default U64_MAX (capacity_msat chan) else m)
  ∧ ((∀ limit, limit ∈ max_limits (rq_layers rq) scidd → limit < U64_MAX) →
     (constraints_window rq chan dir).2
     = spec_effective_max (rq_layers rq) scidd chan)
  ∧ get_constraints (rq_with_layers rq ls) chan dir
    = get_constraints rq chan dir.
Proof.
  intros Hp scidd m.
  assert (Hwin : constraints_window rq chan dir
    = (spec_effective_min (rq_layers rq) scidd,
       if m =? U64_MAX then default U64_MAX (capacity_msat chan) else m)).
  { rewrite constraints_window_eq, constraints_capacity_eq. fold scidd m.
    unfold spec_effective_min. f_equal.
    destruct (Z.eqb_spec m U64_MAX) as [->|]; done. }
  split; [by apply get_constraints_slow_path|].
  split; [done|]. split.
  - intros Hlt. rewrite Hwin. simpl. unfold spec_effective_max. subst m.
    destruct (max_limits (rq_layers rq) scidd) as [|limit limits]; [done|].
    assert (limit < U64_MAX) by (apply Hlt; left).
    simpl.
    assert (Hmin : foldr Z.min limit limits
                   = Z.min limit (foldr Z.min U64_MAX limits)).
    { rewrite <- foldr_min_init. f_equal. lia. }
    rewrite Hmin.
    destruct (Z.eqb_spec (Z.min limit (foldr Z.min U64_MAX limits)) U64_MAX);
      [lia | done].
  - unfold get_constraints, get_constraints_slow.
    by rewrite constraints_window_perm.
Qed.

End Constraints.

(** *** C6 at concrete query contexts *)

(** C6: an instance with two layers swapped. *)
Lemma constraints_window_aggregates_witness :
  let chan := sample_chan 7 (Some 1) in
  let l1 := sample_layer "a" [((7, 0, CONSTRAINT_MIN), 300);
                              ((7, 0, CONSTRAINT_MAX), 900)] in
  let l2 := sample_layer "b" [((7, 0, CONSTRAINT_MIN), 400);
                              ((7, 0, CONSTRAINT_MAX), 800)] in
  let rq := sample_rq [0] [l1; l2] ∅ chan in
  [l2; l1] ≡ₚ rq_layers rq
  ∧ constraints_window rq chan 0 = (400, 800)
  ∧ @get_constraints common_fp16 (rq_with_layers rq [l2; l1]) chan 0
    = @get_constraints common_fp16 rq chan 0.
Proof.
  intros chan l1 l2 rq.
  assert (Hp : [l2; l1] ≡ₚ rq_layers rq) by apply perm_swap.
  split; [exact Hp|].
  destruct (@constraints_window_aggregates common_fp16 rq chan 0 [l2; l1] Hp)
    as (_ & Hwin & _ & Hperm).
  split; [exact Hwin | exact Hperm].
Defined.

(** C6, as stated, fails: a MAX limit of 2^64-1 is the sentinel of the
    capacity step, so the window's maximum is the capacity (1 sat), not the
    minimum of the MAX limits. *)
Lemma sentinel_limit_takes_capacity :
  let chan := sample_chan 7 (Some 1) in
  let rq := sample_rq [0] [sample_layer "a" [((7, 0, CONSTRAINT_MAX),
                                              18446744073709551615)]]
                      ∅ chan in
  slow_path rq chan
  ∧ max_limits (rq_layers rq) (7, 0) = [18446744073709551615]
  ∧ spec_effective_max (rq_layers rq) (7, 0) chan = 18446744073709551615
  ∧ (constraints_window rq chan 0).2 = 1000
  ∧ @get_constraints common_fp16 rq chan 0 = (0, 1000)
  ∧ (constraints_window rq chan 0).2
    ≠ spec_effective_max (rq_layers rq) (7, 0) chan.
Proof.
  split; [by right|]. vm_compute. repeat split; congruence.
Qed.

(** ** The capacity cache of a query *)

Lemma cleared_from_refl (caps : list Z) : cleared_from caps caps.
Proof. split; [done | by right]. Qed.

Lemma cleared_from_insert (caps0 caps : list Z) (i : nat) :
  cleared_from caps0 caps → cleared_from caps0 (<[i := 0]> caps).
Proof.
  intros [Hlen Hent]. split; [by rewrite length_insert|].
  intros j v Hj. destruct (decide (i = j)) as [->|Hne].
  - destruct (decide (j < length caps)%nat).
    + rewrite list_lookup_insert_eq in Hj by done. left. congruence.
    + rewrite list_insert_ge in Hj by lia. by apply Hent.
  - rewrite list_lookup_insert_ne in Hj by done. by apply Hent.
Qed.

Lemma cleared_from_clear_capacity (g : gossmap) (caps0 caps : list Z)
    (scid : Z) :
  cleared_from caps0 caps → cleared_from caps0 (clear_capacity g caps scid).
Proof.
  intros Hc. unfold clear_capacity.
  destruct (gossmap_find_chan g scid); [by apply cleared_from_insert | done].
Qed.

Lemma cleared_from_foldl (g : gossmap) (caps0 caps : list Z)
    (scids : list Z) :
  cleared_from caps0 caps →
  cleared_from caps0 (foldl (clear_capacity g) caps scids).
Proof.
  revert caps. induction scids as [|s scids IH]; intros caps Hc; [done|].
  simpl. by apply IH, cleared_from_clear_capacity.
Qed.

Lemma clear_capacity_length (g : gossmap) (caps : list Z) (scid : Z) :
  length (clear_capacity g caps scid) = length caps.
Proof.
  unfold clear_capacity. destruct (gossmap_find_chan g scid); [|done].
  apply length_insert.
Qed.

Lemma clear_capacity_zero (g : gossmap) (caps : list Z) (scid : Z)
    (i : nat) :
  caps !! i = Some 0 → clear_capacity g caps scid !! i = Some 0.
Proof.
  intros Hz. unfold clear_capacity.
  destruct (gossmap_find_chan g scid) as [c|]; [|done].
  destruct (decide (gossmap_chan_idx c = i)) as [->|Hne].
  - apply list_lookup_insert_eq. by eapply lookup_lt_Some.
  - by rewrite list_lookup_insert_ne.
Qed.

Lemma foldl_clear_capacity_zero (g : gossmap) (caps : list Z)
    (scids : list Z) (i : nat) :
  caps !! i = Some 0 → foldl (clear_capacity g) caps scids !! i = Some 0.
Proof.
  revert caps. induction scids as [|s scids IH]; intros caps Hz; [done|].
  simpl. by apply IH, clear_capacity_zero.
Qed.

Lemma foldl_clear_capacity_length (g : gossmap) (caps : list Z)
    (scids : list Z) :
  length (foldl (clear_capacity g) caps scids) = length caps.
Proof.
  revert caps. induction scids as [|s scids IH]; intros caps; [done|].
  simpl. by rewrite IH, clear_capacity_length.
Qed.

(** Clearing a list of scids leaves no fast answer for any of them. *)
Lemma foldl_clear_capacity_elem (g : gossmap) (caps : list Z)
    (scids : list Z) (scid : Z) (c : gossmap_chan) :
  scid ∈ scids → gossmap_find_chan g scid = Some c →
  foldl (clear_capacity g) caps scids !! gossmap_chan_idx c = None
  ∨ foldl (clear_capacity g) caps scids !! gossmap_chan_idx c = Some 0.
Proof.
  revert caps. induction scids as [|s scids IH]; intros caps Hin Hfind.
  { by apply elem_of_nil in Hin. }
  simpl. apply elem_of_cons in Hin as [<-|Hin]; [|by apply IH].
  destruct (decide (gossmap_chan_idx c < length caps)%nat) as [Hlt|Hge].
  - right. apply foldl_clear_capacity_zero.
    unfold clear_capacity. rewrite Hfind. by apply list_lookup_insert_eq.
  - left. apply lookup_ge_None_2.
    rewrite foldl_clear_capacity_length, clear_capacity_length. lia.
Qed.

Lemma gossmap_max_chan_idx_lt (g : gossmap) (c : gossmap_chan) :
  c ∈ gm_chans g → (chan_idx c < gossmap_max_chan_idx g)%nat.
Proof.
  unfold gossmap_max_chan_idx.
  induction (gm_chans g) as [|c' cs IH]; intros Hin.
  { by apply elem_of_nil in Hin. }
  simpl. apply elem_of_cons in Hin as [->|Hin]; [lia|].
  specialize (IH Hin). lia.
Qed.

Lemma no_limits (ls : list layer) (scidd : Z * Z) (t : constraint_type) :
  (∀ l, l ∈ ls → layer_find_constraint l scidd t = None) →
  omap (λ l, c_limit <$> layer_find_constraint l scidd t) ls = [].
Proof.
  induction ls as [|l ls IH]; intros Hnone; [done|].
  simpl. rewrite (Hnone l) by left. simpl. apply IH.
  intros l' Hl'. apply Hnone. by right.
Qed.

(** Without constraints in the selected layers, the window is the whole
    capacity. *)
Lemma constraints_window_no_information (rq : route_query)
    (chan : gossmap_chan) (dir cap : Z) :
  (∀ l t, l ∈ rq_layers rq →
          layer_find_constraint l (gossmap_chan_scid chan, dir) t = None) →
  gossmap_chan_get_capacity chan = Some cap →
  cap * 1000 ≤ U64_MAX →
  constraints_window rq chan dir = (0, cap * 1000).
Proof.
  intros Hnone Hcap Hfit. rewrite constraints_window_eq.
  unfold min_limits, max_limits.
  rewrite !no_limits by (intros; by apply Hnone). simpl.
  rewrite constraints_capacity_eq. simpl.
  unfold capacity_msat, amount_sat_to_msat, MSAT_PER_SAT. rewrite Hcap. simpl.
  destruct (Z.ltb_spec U64_MAX (cap * 1000)); [lia | done].
Qed.

Section Query.
Context `{Fp16Codec}.

Lemma get_capacities_chans_other (cs : list gossmap_chan) (caps : list Z)
    (i : nat) :
  i ∉ chan_idx <$> cs →
  get_capacities_chans cs caps !! i = caps !! i.
Proof.
  revert caps. induction cs as [|c cs IH]; intros caps Hni; [done|].
  simpl in *. apply not_elem_of_cons in Hni as [Hne Hni].
  rewrite IH by done. unfold gossmap_chan_idx.
  by rewrite list_lookup_insert_ne.
Qed.

Lemma get_capacities_chans_lookup (cs : list gossmap_chan) (caps : list Z)
    (c : gossmap_chan) :
  NoDup (chan_idx <$> cs) → c ∈ cs → (chan_idx c < length caps)%nat →
  get_capacities_chans cs caps !! chan_idx c
  = Some (u64_to_fp16 (default 0 (gossmap_chan_get_capacity c)) true).
Proof.
  revert caps. induction cs as [|c' cs IH]; intros caps Hnd Hin Hlt.
  { by apply elem_of_nil in Hin. }
  simpl in *. apply NoDup_cons in Hnd as [Hni Hnd].
  apply elem_of_cons in Hin as [->|Hin].
  - rewrite get_capacities_chans_other by done.
    unfold gossmap_chan_idx. rewrite list_lookup_insert_eq by done.
    by destruct (gossmap_chan_get_capacity c').
  - apply IH; [done..|]. by rewrite length_insert.
Qed.

(** The cache holds, at the index of every channel, its compressed
    capacity. *)
Lemma get_capacities_lookup (g : gossmap) (c : gossmap_chan) :
  NoDup (chan_idx <$> gm_chans g) → c ∈ gm_chans g →
  get_capacities g !! chan_idx c
  = Some (u64_to_fp16 (default 0 (gossmap_chan_get_capacity c)) true).
Proof.
  intros Hnd Hin. apply get_capacities_chans_lookup; [done..|].
  rewrite length_replicate. by apply gossmap_max_chan_idx_lt.
Qed.

(** A cache that is up to date stays so through the refresh. *)
Lemma get_routes_refresh_capacities (a : askrene) :
  a_capacities a = get_capacities (a_gossmap a) →
  a_capacities (get_routes_refresh a)
  = get_capacities (a_gossmap (get_routes_refresh a)).
Proof.
  intros Hinv. unfold get_routes_refresh, gossmap_refresh.
  by destruct (gm_unread (a_gossmap a)).
Qed.

Lemma get_routes_layers_cleared (a : askrene) (names : list string)
    (ls : list layer) (mods : gossmap_localmods) (caps0 caps : list Z) :
  cleared_from caps0 caps →
  cleared_from caps0 (foldl (get_routes_layer a) (ls, mods, caps) names).2.
Proof.
  revert ls mods caps.
  induction names as [|n names IH]; intros ls mods caps Hc; [done|].
  simpl. destruct (find_layer a n); [|by apply IH].
  apply IH. by apply cleared_from_foldl.
Qed.

Lemma get_routes_layers_selected (a : askrene) (names : list string)
    (ls : list layer) (mods : gossmap_localmods) (caps : list Z) :
  (foldl (get_routes_layer a) (ls, mods, caps) names).1.1
  = ls ++ omap (find_layer a) names.
Proof.
  revert ls mods caps. induction names as [|n names IH]; intros ls mods caps.
  { simpl. by rewrite app_nil_r. }
  simpl. destruct (find_layer a n) as [l|]; rewrite IH; [|done].
  by rewrite <- app_assoc.
Qed.

(** The routes array as [tal_arr] returns it holds no pointer: the first
    store of the dummy route has no object to land in. *)
Lemma get_routes_stub_unset (dest : node_id) (amount : Z) :
  get_routes_stub (tal_arr 1) dest amount = None.
Proof. reflexivity. Qed.

(** [get_routes] with its let-bound triple written as projections. *)
Lemma get_routes_unfold (a : askrene) (source dest : node_id) (amount : Z)
    (layers : list string) :
  let a' := get_routes_refresh a in
  let acc := foldl (get_routes_layer a')
                   ([], gossmap_localmods_new, a_capacities a') layers in
  get_routes a source dest amount layers
  = {| gr_askrene :=
         set_gossmap a' (gossmap_apply_localmods (a_gossmap a') acc.1.2);
       gr_rq :=
         {| rq_gossmap := gossmap_apply_localmods (a_gossmap a') acc.1.2;
            rq_reserved := a_reserved a';
            rq_layers := acc.1.1;
            rq_capacities :=
              reserves_clear_capacities (a_reserved a') (a_gossmap a')
                                        acc.2 |};
       gr_end := end_undefined |}.
Proof.
  intros a' acc. unfold get_routes. fold a'. fold acc.
  rewrite get_routes_stub_unset.
  by destruct acc as [[ls mods] caps].
Qed.

(** The context of a query: the reservation table of the plugin, the
    layers that exist among the requested names, in the order requested,
    and the refreshed cache with some entries cleared. *)
Lemma get_routes_rq (a : askrene) (source dest : node_id) (amount : Z)
    (layers : list string) :
  let a' := get_routes_refresh a in
  let rq := gr_rq (get_routes a source dest amount layers) in
  rq_reserved rq = a_reserved a
  ∧ rq_layers rq = omap (find_layer a) layers
  ∧ cleared_from (a_capacities a') (rq_capacities rq).
Proof.
  intros a' rq. subst rq. rewrite get_routes_unfold. fold a'. simpl.
  split; [|split].
  - unfold a', get_routes_refresh. by destruct (gossmap_refresh _).
  - rewrite get_routes_layers_selected. simpl.
    unfold a', get_routes_refresh, find_layer. by destruct (gossmap_refresh _).
  - apply cleared_from_foldl, get_routes_layers_cleared, cleared_from_refl.
Qed.

Lemma get_routes_layers_caps (a : askrene) (names : list string)
    (ls : list layer) (mods : gossmap_localmods) (caps : list Z) :
  (foldl (get_routes_layer a) (ls, mods, caps) names).2
  = foldl (clear_capacity (a_gossmap a)) caps
          (omap (find_layer a) names ≫= λ l,
             (map_to_list (l_constraints l)).*1.*1.*1
             ++ (map_to_list (l_local_channels l)).*1).
Proof.
  revert ls mods caps. induction names as [|n names IH]; intros ls mods caps.
  { done. }
  simpl. destruct (find_layer a n) as [l|]; simpl; rewrite IH; [|done].
  unfold layer_clear_overridden_capacities. symmetry. apply foldl_app.
Qed.

(** The cache of a query is the refreshed cache with the entries of
    [cleared_scids] cleared. *)
Lemma get_routes_rq_capacities (a : askrene) (source dest : node_id)
    (amount : Z) (layers : list string) :
  let a' := get_routes_refresh a in
  let rq := gr_rq (get_routes a source dest amount layers) in
  rq_capacities rq
  = foldl (clear_capacity (a_gossmap a')) (a_capacities a')
          (cleared_scids (rq_layers rq) (rq_reserved rq)).
Proof.
  intros a' rq. subst rq. rewrite get_routes_unfold. fold a'. simpl.
  unfold reserves_clear_capacities, cleared_scids.
  rewrite get_routes_layers_caps, get_routes_layers_selected, foldl_app.
  done.
Qed.

(** "Fast path: no information known, no reserve." In the context that
    [get_routes] builds, a channel that the graph finds under its scid
    takes the slow path as soon as a direction of it is reserved, or a
    selected layer holds a constraint or a local channel for it. *)
Lemma get_routes_known_slow_path (a : askrene) (source dest : node_id)
    (amount : Z) (layers : list string) (chan : gossmap_chan) :
  let a' := get_routes_refresh a in
  let rq := gr_rq (get_routes a source dest amount layers) in
  gossmap_find_chan (a_gossmap a') (gossmap_chan_scid chan) = Some chan →
  (∃ dir, is_Some (find_reserve (rq_reserved rq)
                                (gossmap_chan_scid chan, dir)))
  ∨ (∃ l dir type, l ∈ rq_layers rq
       ∧ is_Some (layer_find_constraint l (gossmap_chan_scid chan, dir) type))
  ∨ (∃ l, l ∈ rq_layers rq
       ∧ is_Some (layer_find_local_channel l (gossmap_chan_scid chan))) →
  slow_path rq chan.
Proof.
  intros a' rq Hfind Hknown. unfold slow_path.
  unfold rq. rewrite get_routes_rq_capacities. fold a' rq.
  apply (foldl_clear_capacity_elem _ _ _ (gossmap_chan_scid chan)); [|done].
  unfold cleared_scids. apply elem_of_app.
  destruct Hknown as [(dir & [r Hr])
                     | [(l & dir & type & Hl & [c Hc]) | (l & Hl & [lc Hlc])]].
  - right. apply list_elem_of_fmap. exists (gossmap_chan_scid chan, dir).
    split; [done|]. apply list_elem_of_fmap.
    exists (gossmap_chan_scid chan, dir, r). split; [done|].
    by apply elem_of_map_to_list.
  - left. apply list_elem_of_bind. exists l. split; [|done].
    apply elem_of_app. left.
    apply list_elem_of_fmap. exists (gossmap_chan_scid chan, dir).
    split; [done|]. apply list_elem_of_fmap.
    exists (gossmap_chan_scid chan, dir, type). split; [done|].
    apply list_elem_of_fmap.
    exists (gossmap_chan_scid chan, dir, type, c). split; [done|].
    by apply elem_of_map_to_list.
  - left. apply list_elem_of_bind. exists l. split; [|done].
    apply elem_of_app. right.
    apply list_elem_of_fmap. exists (gossmap_chan_scid chan, lc).
    split; [done|]. by apply elem_of_map_to_list.
Qed.

(** C2, as amended. Take a query on a state whose cache is up to date, a
    channel of the refreshed graph (channel indices distinct) with a
    capacity of [cap] sat, [cap] * 1000 below 2^64, no MIN or MAX
    constraint for it in a selected layer and no reservation on
    (scid, dir). When the slow path answers, [get_constraints] returns
    (0, [cap] * 1000); when the fast path answers, the cache entry is
    [u64_to_fp16 cap true] and the result is (0, that entry expanded,
    times 1000): the capacity as the fp16 cache holds it, not the exact
    value. *)
Theorem get_constraints_without_information (a : askrene)
    (source dest : node_id) (amount : Z) (layers : list string)
    (chan : gossmap_chan) (dir cap : Z) :
  let a' := get_routes_refresh a in
  let rq := gr_rq (get_routes a source dest amount layers) in
  let scid := gossmap_chan_scid chan in
  a_capacities a = get_capacities (a_gossmap a) →
  NoDup (chan_idx <$> gm_chans (a_gossmap a')) →
  chan ∈ gm_chans (a_gossmap a') →
  gossmap_chan_get_capacity chan = Some cap →
  cap * 1000 ≤ U64_MAX →
  (∀ l d t, l ∈ rq_layers rq → layer_find_constraint l (scid, d) t = None) →
  find_reserve (rq_reserved rq) (scid, dir) = None →
  (slow_path rq chan ∧ get_constraints rq chan dir = (0, cap * 1000))
  ∨ (rq_capacities rq !! gossmap_chan_idx chan = Some (u64_to_fp16 cap true)
     ∧ u64_to_fp16 cap true ≠ 0
     ∧ get_constraints rq chan dir
       = (0, u64 (fp16_to_u64 (u64_to_fp16 cap true) * 1000))).
Proof.
  intros a' rq scid Hinv Hnd Hin Hcap Hfit Hnone Hres.
  destruct (get_routes_rq a source dest amount layers)
    as (_ & _ & Hlen & Hent).
  fold a' rq in Hlen, Hent.
  assert (Hslow : slow_path rq chan →
                  get_constraints rq chan dir = (0, cap * 1000)).
  { intros Hslow. rewrite get_constraints_slow_path by done.
    unfold get_constraints_slow.
    rewrite (constraints_window_no_information rq chan dir cap)
      by (intros; try apply Hnone; done).
    rewrite constraints_reserve_eq. fold scid. by rewrite Hres. }
  pose proof (get_capacities_lookup (a_gossmap a') chan Hnd Hin) as Hlk.
  pose proof (get_routes_refresh_capacities a Hinv) as Hcaps.
  fold a' in Hcaps. rewrite <- Hcaps, Hcap in Hlk. simpl in Hlk.
  destruct (rq_capacities rq !! gossmap_chan_idx chan) as [v|] eqn:Hv.
  - destruct (Hent _ _ Hv) as [->|Hv0].
    + left. split; [by right | apply Hslow; by right].
    + unfold gossmap_chan_idx in Hv0. rewrite Hlk in Hv0.
      injection Hv0 as <-.
      destruct (decide (u64_to_fp16 cap true = 0)) as [Hz|Hnz].
      * left. rewrite Hz in Hv. split; [by right | apply Hslow; by right].
      * right. split; [done|]. split; [done|].
        by apply get_constraints_fast.
  - left. split; [by left | apply Hslow; by left].
Qed.




End Query.

(** With the modelled codec the fast path never understates a capacity
    that the format holds, and it is exact below 2048 sat. *)
Lemma common_fp16_fast_path (rq : route_query) (chan : gossmap_chan)
    (dir cap : Z) :
  rq_capacities rq !! gossmap_chan_idx chan
  = Some (common_u64_to_fp16 cap true) →
  common_u64_to_fp16 cap true ≠ 0 →
  0 ≤ cap ≤ (2 ^ 11 - 1) * 2 ^ 31 →
  ∃ max, @get_constraints common_fp16 rq chan dir = (0, max)
         ∧ cap * 1000 ≤ max
         ∧ (cap < 2 ^ 11 → max = cap * 1000).
Proof.
  intros Hcap Hnz Hrange.
  rewrite (@get_constraints_fast common_fp16 rq chan dir _ Hcap Hnz).
  pose proof (common_fp16_round_up cap Hrange) as Hup.
  eexists. split; [reflexivity|]. simpl. unfold u64.
  rewrite Z.mod_small by lia. split; [lia|].
  intros Hsmall. rewrite common_fp16_exact by lia. done.
Qed.

(** The second scenario of the specification: 400000000 msat reserved on
    a channel of 1000000 sat. The query clears the cache entry of the
    reserved scid, so both directions take the slow path; without the
    reservation the fast path answers with the rounded-up capacity. *)
Example scenario_reservation_reduces_max :
  let chan := sample_chan 1 (Some 1000000) in
  let a := sample_askrene [chan] [] ∅ ∅ in
  let a' := (json_askrene_reserve a (Some [((1, 0), 400000000)])).1 in
  let rq := gr_rq (@get_routes common_fp16 a 2 3 500000000 []) in
  let rq' := gr_rq (@get_routes common_fp16 a' 2 3 500000000 []) in
  @get_constraints common_fp16 rq' chan 0 = (0, 600000000)
  ∧ @get_constraints common_fp16 rq' chan 1 = (0, 1000000000)
  ∧ @get_constraints common_fp16 rq chan 0 = (0, 1000448000).
Proof. vm_compute. done. Qed.

(** *** C1, C2 and C9 at concrete states *)

(** C2: an instance with one channel of 1000 sat, no layers and no
    reservations. *)
Lemma get_constraints_without_information_witness :
  let chan := sample_chan 1 (Some 1000) in
  let a := sample_askrene [chan] [] ∅ ∅ in
  let rq := gr_rq (@get_routes common_fp16 a 2 3 500000000 []) in
  (slow_path rq chan
   ∧ @get_constraints common_fp16 rq chan 0 = (0, 1000 * 1000))
  ∨ (rq_capacities rq !! gossmap_chan_idx chan
     = Some (common_u64_to_fp16 1000 true)
     ∧ common_u64_to_fp16 1000 true ≠ 0
     ∧ @get_constraints common_fp16 rq chan 0
       = (0, u64 (common_fp16_to_u64 (common_u64_to_fp16 1000 true) * 1000))).
Proof.
  intros chan a rq.
  apply (@get_constraints_without_information common_fp16 a 2 3 500000000 []
           chan 0 1000).
  - reflexivity.
  - apply NoDup_singleton.
  - by left.
  - reflexivity.
  - unfold U64_MAX. lia.
  - intros l d t Hl. by apply elem_of_nil in Hl.
  - reflexivity.
Defined.

(** C2, as stated, fails: a channel of 2049 sat with no layers and no
    reservations. The cache holds 2049 rounded up to twelve bits, and the
    query returns max = 2050000 msat where the capacity is 2049000 msat. *)
Lemma cache_rounds_capacity_up :
  let chan := sample_chan 1 (Some 2049) in
  let a := sample_askrene [chan] [] ∅ ∅ in
  let rq := gr_rq (@get_routes common_fp16 a 2 3 500000000 []) in
  chan ∈ gm_chans (a_gossmap a)
  ∧ rq_layers rq = []
  ∧ rq_reserved rq = ∅
  ∧ capacity_msat chan = Some 2049000
  ∧ @get_constraints common_fp16 rq chan 0 = (0, 2050000)
  ∧ @get_constraints common_fp16 rq chan 0 ≠ (0, 2049000).
Proof.
  split; [by left|]. vm_compute. repeat split; congruence.
Qed.



(** ** The dummy route of [get_routes] *)

(** C3. The stores of the dummy route describe one route of one hop, with
    the requested amount, the delay 6, the destination as node id and
    success_prob 1, whose probability_ppm is 1000000, truncated or
    rounded; [json_getroutes] would add it to the stream without an object
    around the route or the hop. But they go through element 0 of an array
    that [tal_arr] returned and that holds no pointer: on the first
    scenario of the specification, as on every request that [param]
    accepts, getroutes has no defined behaviour and no response. *)
Theorem getroutes_route_never_written :
  (∀ dest amount, get_routes_stub (tal_arr 1) dest amount = None)
  ∧ (∀ r0 dest amount,
        ∃ hop rt,
          get_routes_stub [slot_set r0] dest amount = Some [slot_set rt]
          ∧ hops rt = [hop]
          ∧ rh_amount hop = amount
          ∧ rh_delay hop = 6
          ∧ rh_node_id hop = dest
          ∧ success_prob rt = 1%Q
          ∧ probability_ppm rt = 1000000
          ∧ round_ppm (success_prob rt) = 1000000
          ∧ getroutes_stream [rt]
            = [json_object_start "routes"; json_array_start "routes";
               json_add_u64 "probability_ppm" 1000000;
               json_array_start "path";
               json_add_short_channel_id "short_channel_id" (rh_scid hop);
               json_add_u32 "direction" 0;
               json_add_node_id "node_id" dest;
               json_add_amount_msat "amount" amount;
               json_add_u32 "delay" 6;
               json_array_end; json_array_end; json_object_end])
  ∧ (∀ `{Fp16Codec} a p, json_getroutes a (Some p) = undefined)
  ∧ @json_getroutes common_fp16
      (sample_askrene [sample_chan 1 (Some 1000000)] [] ∅ ∅)
      (Some sample_getroutes) = undefined.
Proof.
  split; [done|]. split; [|split].
  - intros r0 dest amount. eexists _, _. split; [reflexivity|].
    simpl. repeat split.
  - intros codec a p. simpl. by rewrite get_routes_unfold.
  - reflexivity.
Qed.


(** C10. The only [return] of [get_routes] returns [NULL], and
    [json_getroutes] never answers with PAY_ROUTE_NOT_FOUND; but
    [get_routes] does not reach its [return] on any input: it stops in the
    store through the unset element of the routes array. The only defined
    answer of getroutes is the one to a request that [param] rejects. *)
Theorem get_routes_reaches_no_return :
  (∀ `{Fp16Codec} a source dest amount layers,
      gr_end (get_routes a source dest amount layers) = end_undefined
      ∧ ∀ routes, gr_end (get_routes a source dest amount layers)
                  ≠ end_return None routes)
  ∧ (∀ `{Fp16Codec} a params a' msg,
        json_getroutes a params
        ≠ defined (a', command_fail PAY_ROUTE_NOT_FOUND msg))
  ∧ (∀ `{Fp16Codec} a params a' result,
        json_getroutes a params = defined (a', result) →
        params = None ∧ a' = a ∧ result = command_param_failed)
  ∧ gr_end (@get_routes common_fp16
              (sample_askrene [sample_chan 1 (Some 1000000)] [] ∅ ∅)
              2 3 500000000 []) = end_undefined.
Proof.
  split; [|split; [|split]].
  - intros codec a source dest amount layers.
    rewrite get_routes_unfold. simpl. split; [done|]. by intros routes.
  - intros codec a [p|] a' msg; simpl; [|discriminate].
    by rewrite get_routes_unfold.
  - intros codec a [p|] a' result; simpl.
    + by rewrite get_routes_unfold.
    + by intros [= <- <-].
  - reflexivity.
Qed.

(** ** The reservation table *)

Lemma reserve_add_one_Some (reserved reserved' : reserve_hash)
    (scidd : Z * Z) (amount : Z) :
  reserve_add_one reserved scidd amount = Some reserved' →
  ∀ s, reserved_amount reserved' s
       = reserved_amount reserved s + (if decide (scidd = s) then amount else 0)
     ∧ reserved_htlcs reserved' s
       = reserved_htlcs reserved s + (if decide (scidd = s) then 1 else 0)
     ∧ (scidd ≠ s → reserved' !! s = reserved !! s).
Proof.
  unfold reserve_add_one, reserved_amount, reserved_htlcs, amount_msat_add.
  intros Hadd s.
  destruct (reserved !! scidd) as [r|] eqn:Hr.
  - destruct (U64_MAX <? r_amount r + amount); [done|].
    injection Hadd as <-. destruct (decide (scidd = s)) as [<-|Hne].
    + rewrite lookup_insert_eq, Hr. simpl. done.
    + rewrite lookup_insert_ne by done. split; [lia|]. split; [lia|done].
  - injection Hadd as <-. destruct (decide (scidd = s)) as [<-|Hne].
    + rewrite lookup_insert_eq, Hr. simpl. done.
    + rewrite lookup_insert_ne by done. split; [lia|]. split; [lia|done].
Qed.

Lemma reserve_add_one_None (reserved : reserve_hash) (scidd : Z * Z)
    (amount : Z) :
  reserve_add_one reserved scidd amount = None →
  ∃ r, find_reserve reserved scidd = Some r ∧ U64_MAX < r_amount r + amount.
Proof.
  unfold reserve_add_one, find_reserve, amount_msat_add.
  destruct (reserved !! scidd) as [r|]; [|done].
  destruct (Z.ltb_spec U64_MAX (r_amount r + amount)); [|done].
  intros _. by exists r.
Qed.

(** The loop of [reserves_add] stops at the first entry that overflows,
    having applied exactly the entries before it. *)
Lemma reserves_add_from_spec (path : list ((Z * Z) * Z))
    (reserved reserved' : reserve_hash) (i n : nat) :
  reserves_add_from reserved path i = (reserved', n) →
  ∃ k : nat,
    n = (i + k)%nat ∧ (k ≤ length path)%nat
    ∧ (∀ s, reserved_amount reserved' s
            = reserved_amount reserved s + path_amount (take k path) s)
    ∧ (∀ s, reserved_htlcs reserved' s
            = reserved_htlcs reserved s + path_count (take k path) s)
    ∧ (∀ s, s ∉ (take k path).*1 → reserved' !! s = reserved !! s)
    ∧ ((k < length path)%nat →
       ∃ s amount r, path !! k = Some (s, amount)
                     ∧ find_reserve reserved' s = Some r
                     ∧ U64_MAX < r_amount r + amount).
Proof.
  revert reserved i.
  induction path as [|[s amount] path IH]; intros reserved i Hrun.
  { injection Hrun as <- <-. exists 0%nat. simpl.
    repeat split; try lia; try done. }
  simpl in Hrun.
  destruct (reserve_add_one reserved s amount) as [reserved1|] eqn:Hone.
  - destruct (IH _ _ Hrun) as (k & -> & Hk & Hamt & Hcnt & Hfr & Hfail).
    exists (S k). simpl. split; [lia|]. split; [lia|].
    pose proof (reserve_add_one_Some _ _ _ _ Hone) as Hstep.
    split; [|split; [|split]].
    + intros s'. rewrite Hamt. destruct (Hstep s') as (-> & _ & _).
      repeat case_decide; congruence || lia.
    + intros s'. rewrite Hcnt. destruct (Hstep s') as (_ & -> & _).
      repeat case_decide; congruence || lia.
    + intros s' Hni. apply not_elem_of_cons in Hni as [Hne Hni].
      rewrite Hfr by done. destruct (Hstep s') as (_ & _ & Hsame).
      apply Hsame. congruence.
    + intros Hlt. apply Hfail. lia.
  - injection Hrun as <- <-. exists 0%nat. simpl.
    split; [lia|]. split; [lia|]. split; [intros; lia|]. split; [intros; lia|].
    split; [done|]. intros _.
    destruct (reserve_add_one_None _ _ _ Hone) as (r & Hr & Hov).
    by exists s, amount, r.
Qed.

(** Every shorter run of the loop goes through: the index returned is the
    first that fails. *)
Lemma reserves_add_from_prefix (path : list ((Z * Z) * Z))
    (reserved reserved' : reserve_hash) (i n j : nat) :
  reserves_add_from reserved path i = (reserved', n) →
  (i + j ≤ n)%nat →
  (reserves_add_from reserved (take j path) i).2 = (i + j)%nat.
Proof.
  revert reserved i j.
  induction path as [|[s amount] path IH]; intros reserved i j Hrun Hj.
  { injection Hrun as <- <-. rewrite take_nil. simpl. lia. }
  destruct j as [|j]; [simpl; lia|].
  simpl in *.
  destruct (reserve_add_one reserved s amount) as [reserved1|].
  - rewrite (IH _ _ j Hrun) by lia. lia.
  - injection Hrun as <- <-. lia.
Qed.

(** C4. For every path, [reserves_add] returns an index [num] within the
    path; run on any shorter prefix it goes through, so [num] is the first
    index that fails. The table is left with exactly the entries before
    [num] applied, in amounts and in HTLC counts, and every other scidd as
    it was. When [num] is the length of the path the command succeeds.
    Otherwise the entry at [num] overflows: the amount reserved on its
    scidd plus the amount asked exceeds 2^64-1; the state keeps the partly
    updated table and the command fails with invalid params and a message
    that carries [num], that scidd, the amount asked and the amount
    reserved there. *)
Theorem json_askrene_reserve_partial (a : askrene)
    (entries : list ((Z * Z) * Z)) :
  ∃ (num : nat) (reserved : reserve_hash),
    reserves_add (a_reserved a) entries.*1 entries.*2 (length entries)
    = (reserved, num)
    ∧ (json_askrene_reserve a (Some entries)).1 = set_reserved a reserved
    ∧ (num ≤ length entries)%nat
    ∧ (∀ j, (j ≤ num)%nat →
            (reserves_add (a_reserved a) entries.*1 entries.*2 j).2 = j)
    ∧ (∀ s, reserved_amount reserved s
            = reserved_amount (a_reserved a) s
              + path_amount (take num entries) s)
    ∧ (∀ s, reserved_htlcs reserved s
            = reserved_htlcs (a_reserved a) s
              + path_count (take num entries) s)
    ∧ (∀ s, s ∉ (take num entries).*1 → reserved !! s = a_reserved a !! s)
    ∧ (num = length entries →
       (json_askrene_reserve a (Some entries)).2
       = command_finished resp_empty)
    ∧ (num ≠ length entries →
       ∃ s amount r,
         entries !! num = Some (s, amount)
         ∧ find_reserve reserved s = Some r
         ∧ U64_MAX < r_amount r + amount
         ∧ (json_askrene_reserve a (Some entries)).2
           = command_fail JSONRPC2_INVALID_PARAMS
               (msg_overflow_reserving num s amount (Some (r_amount r)))).
Proof.
  unfold json_askrene_reserve, param_reserve_path, reserves_add. simpl.
  rewrite !length_fmap, zip_fst_snd.
  rewrite firstn_all.
  destruct (reserves_add_from (a_reserved a) entries 0)
    as [reserved num] eqn:Hrun.
  destruct (reserves_add_from_spec _ _ _ _ _ Hrun)
    as (k & Hn & Hk & Hamt & Hcnt & Hfr & Hfail).
  simpl in Hn. subst num.
  exists k, reserved. split; [done|].
  split; [by case_bool_decide|]. split; [done|].
  split.
  { intros j Hj.
    apply (reserves_add_from_prefix entries _ _ 0 k j Hrun). lia. }
  split; [done|]. split; [done|]. split; [done|]. split.
  - intros ->. case_bool_decide; [done|done].
  - intros Hne. destruct Hfail as (s & amount & r & Hk' & Hr & Hov); [lia|].
    exists s, amount, r. split; [done|]. split; [done|]. split; [done|].
    case_bool_decide; [|done]. simpl.
    assert (H1 : entries.*1 !! k = Some s)
      by (by rewrite list_lookup_fmap, Hk').
    assert (H2 : entries.*2 !! k = Some amount)
      by (by rewrite list_lookup_fmap, Hk').
    rewrite (list_lookup_total_correct _ _ _ H1),
            (list_lookup_total_correct _ _ _ H2).
    by rewrite Hr.
Qed.

(** C4: the third scenario of the specification inside a longer path.
    The third entry overflows the first; the second stays applied. *)
Lemma json_askrene_reserve_partial_witness :
  let a := sample_askrene [] [] ∅ ∅ in
  let entries := [((1, 0), 2 ^ 63); ((2, 1), 7); ((1, 0), 2 ^ 63)] in
  let r := json_askrene_reserve a (Some entries) in
  r.2 = command_fail JSONRPC2_INVALID_PARAMS
          (msg_overflow_reserving 2 (1, 0) (2 ^ 63) (Some (2 ^ 63)))
  ∧ reserved_amount (a_reserved r.1) (1, 0) = 2 ^ 63
  ∧ reserved_amount (a_reserved r.1) (2, 1) = 7
  ∧ ∃ (num : nat) (reserved : reserve_hash),
      reserves_add (a_reserved a) entries.*1 entries.*2 (length entries)
      = (reserved, num)
      ∧ r.1 = set_reserved a reserved
      ∧ (num ≤ length entries)%nat
      ∧ (∀ j, (j ≤ num)%nat →
              (reserves_add (a_reserved a) entries.*1 entries.*2 j).2 = j)
      ∧ (∀ s, reserved_amount reserved s
              = reserved_amount (a_reserved a) s
                + path_amount (take num entries) s)
      ∧ (∀ s, reserved_htlcs reserved s
              = reserved_htlcs (a_reserved a) s
                + path_count (take num entries) s)
      ∧ (∀ s, s ∉ (take num entries).*1 → reserved !! s = a_reserved a !! s)
      ∧ (num = length entries → r.2 = command_finished resp_empty)
      ∧ (num ≠ length entries →
         ∃ s amount r',
           entries !! num = Some (s, amount)
           ∧ find_reserve reserved s = Some r'
           ∧ U64_MAX < r_amount r' + amount
           ∧ r.2 = command_fail JSONRPC2_INVALID_PARAMS
                     (msg_overflow_reserving num s amount
                        (Some (r_amount r')))).
Proof.
  intros a entries r.
  split; [reflexivity|]. split; [reflexivity|]. split; [reflexivity|].
  exact (json_askrene_reserve_partial a entries).
Defined.

(** ** Layers *)

Lemma find_layer_set_layer (a : askrene) (name name' : string) (l : layer) :
  find_layer (set_layer a name l) name'
  = if decide (name = name') then Some l else find_layer a name'.
Proof. unfold find_layer, set_layer. simpl. apply lookup_insert. Qed.

Lemma channel_matches_check (lc : local_channel) (p : create_channel_params) :
  layer_check_local_channel lc (cc_source p) (cc_destination p)
    (cc_capacity_msat p) = true ↔ channel_matches lc p.
Proof.
  unfold layer_check_local_channel, channel_matches, amount_msat_eq.
  rewrite !andb_true_iff, !bool_decide_eq_true, Z.eqb_eq. tauto.
Qed.

(** Updating the local channel of a layer that the store holds. *)
Lemma create_channel_created (a : askrene) (l : layer)
    (p : create_channel_params) :
  find_layer a (cc_layer p) = Some l →
  created a
    (set_layer a (cc_layer p)
       (layer_update_local_channel l (cc_source p) (cc_destination p)
          (cc_short_channel_id p) (cc_capacity_msat p) (cc_fee_base_msat p)
          (cc_fee_proportional_millionths p) (cc_delay p)
          (cc_htlc_minimum_msat p) (cc_htlc_maximum_msat p)))
    (command_finished resp_empty) p.
Proof.
  intros Hl. unfold created, askrene_local_channel, askrene_constraint.
  split; [done|]. split.
  { rewrite find_layer_set_layer. by case_decide. }
  split.
  { rewrite find_layer_set_layer. case_decide; [|done]. simpl.
    unfold layer_find_local_channel. simpl. by rewrite lookup_insert_eq. }
  split.
  - intros name scid Hne. rewrite find_layer_set_layer.
    case_decide; [|done]. subst. rewrite Hl. simpl.
    unfold layer_find_local_channel. simpl.
    rewrite lookup_insert_ne by congruence. done.
  - intros name scidd type. rewrite find_layer_set_layer.
    case_decide; [|done]. subst. by rewrite Hl.
Qed.

(** C7. When neither or both of minimum_msat and maximum_msat are
    supplied, inform-channel fails with invalid params and the state is
    unchanged: no layer is created or mutated. When exactly one is
    supplied and the request is carried out (a check-only request is a dry
    run that validates and mutates nothing), the constraint of that kind
    for (layer, scid, dir) is set to the limit and the time of the
    request, and no other constraint changes, in particular not the one of
    the other kind for the same scidd. *)
Theorem json_askrene_inform_channel_exactly_one (a : askrene) (now : Z)
    (p : inform_channel_params) :
  let r := json_askrene_inform_channel a false now (Some p) in
  match ic_minimum_msat p, ic_maximum_msat p with
  | Some limit, None => informed a r.1 r.2 now p CONSTRAINT_MIN limit
  | None, Some limit => informed a r.1 r.2 now p CONSTRAINT_MAX limit
  | _, _ =>
      ∀ check_only,
        json_askrene_inform_channel a check_only now (Some p)
        = (a, command_fail JSONRPC2_INVALID_PARAMS
                (msg_text
                   "Must specify exactly one of maximum_msat/minimum_msat"))
  end.
Proof.
  intros r. subst r. unfold json_askrene_inform_channel.
  destruct (ic_minimum_msat p) as [mn|], (ic_maximum_msat p) as [mx|];
    simpl; try done.
  all: unfold informed.
  all: destruct (find_layer a (ic_layer p)) as [l|] eqn:Hl; simpl.
  all: unfold askrene_constraint, askrene_local_channel.
  all: repeat split; try done.
  all: try (intros name scidd' type' Hne);
       try (intros name scid);
       rewrite ?find_layer_set_layer; repeat case_decide; subst;
       rewrite ?Hl; simpl;
       unfold layer_find_constraint, layer_find_local_channel; simpl;
       rewrite ?lookup_insert_eq, ?lookup_empty; try done.
  all: try (rewrite lookup_insert_ne by congruence; by rewrite ?lookup_empty).
Qed.

(** C8. When the named layer has a local channel for the scid whose
    endpoints or capacity differ from the request, create-channel fails
    and the state is unchanged. Otherwise (the channel matches, or the
    layer or the channel is absent) a request that is carried out (a
    check-only request is a dry run that validates and mutates nothing)
    succeeds: the layer exists afterwards, created if it was absent, and
    holds the requested channel under the scid. *)
Theorem json_askrene_create_channel_cases (a : askrene)
    (p : create_channel_params) :
  let r := json_askrene_create_channel a false (Some p) in
  match askrene_local_channel a (cc_layer p) (cc_short_channel_id p) with
  | Some lc =>
      (¬ channel_matches lc p →
       ∀ check_only,
         json_askrene_create_channel a check_only (Some p)
         = (a, command_fail JSONRPC2_INVALID_PARAMS
                 (msg_text "channel already exists with different values!")))
      ∧ (channel_matches lc p → created a r.1 r.2 p)
  | None => created a r.1 r.2 p
  end.
Proof.
  intros r. subst r.
  unfold json_askrene_create_channel, create_channel_conflict,
    askrene_local_channel.
  destruct (find_layer a (cc_layer p)) as [l|] eqn:Hl; simpl.
  - destruct (layer_find_local_channel l (cc_short_channel_id p))
      as [lc|] eqn:Hlc.
    + pose proof (channel_matches_check lc p) as Hchk.
      destruct (layer_check_local_channel lc _ _ _); simpl.
      * split; [intros Hno; exfalso; apply Hno; by apply Hchk|].
        intros _. by apply create_channel_created.
      * split; [done|]. intros Hm. apply Hchk in Hm. done.
    + by apply create_channel_created.
  - unfold new_layer.
    pose proof (create_channel_created
                  (set_layer a (cc_layer p) (empty_layer (cc_layer p)))
                  (empty_layer (cc_layer p)) p) as Hc.
    rewrite find_layer_set_layer in Hc. case_decide; [|done].
    specialize (Hc eq_refl).
    unfold created in *. simpl in *.
    destruct Hc as (? & ? & ? & Hlc & Hcon).
    repeat split; try done.
    + intros name scid Hne. rewrite Hlc by done.
      unfold askrene_local_channel. rewrite find_layer_set_layer.
      case_decide; [subst; by rewrite Hl|done].
    + intros name scidd type. rewrite Hcon.
      unfold askrene_constraint. rewrite find_layer_set_layer.
      case_decide; [subst; by rewrite Hl|done].
Qed.

(** *** C7 and C8 at concrete states *)

(** C7: layer "l" holds a MIN constraint on (2, 1); a maximum is supplied.
    The MAX constraint appears and the MIN constraint stays. *)
Lemma json_askrene_inform_channel_exactly_one_witness :
  let a := sample_askrene [] []
             {[ "l" := sample_layer "l" [((2, 1, CONSTRAINT_MIN), 50)] ]} ∅ in
  let p := sample_inform None (Some 100) in
  let r := json_askrene_inform_channel a false 2000 (Some p) in
  informed a r.1 r.2 2000 p CONSTRAINT_MAX 100
  ∧ askrene_constraint r.1 "l" (2, 1) CONSTRAINT_MAX
    = Some {| c_limit := 100; c_timestamp := 2000 |}
  ∧ askrene_constraint r.1 "l" (2, 1) CONSTRAINT_MIN
    = Some {| c_limit := 50; c_timestamp := 1000 |}.
Proof.
  intros a p r. split.
  - exact (json_askrene_inform_channel_exactly_one a 2000 p).
  - split; reflexivity.
Defined.

(** C8: the fifth scenario of the specification. The first request creates
    layer and channel; the second, with another capacity, fails and leaves
    the state as it was. *)
Lemma json_askrene_create_channel_cases_witness :
  let a := sample_askrene [] [] ∅ ∅ in
  let r1 := json_askrene_create_channel a false (Some (sample_create 1000)) in
  let r2 :=
    json_askrene_create_channel r1.1 false (Some (sample_create 2000)) in
  created a r1.1 r1.2 (sample_create 1000)
  ∧ r2 = (r1.1, command_fail JSONRPC2_INVALID_PARAMS
                  (msg_text "channel already exists with different values!")).
Proof.
  intros a r1 r2. split.
  - exact (json_askrene_create_channel_cases a (sample_create 1000)).
  - apply (proj1 (json_askrene_create_channel_cases r1.1
                    (sample_create 2000))).
    intros (_ & _ & Hcap). vm_compute in Hcap. discriminate.
Defined.

(** * The rest of askrene.c: properties *)

(** ** The parameter parsers *)

Lemma param_string_array_elems_ok (name : string) (ts : list jsmntok)
    (arr : list string) :
  param_string_array_elems name ts = inr arr ↔ ts = JSMN_STRING <$> arr.
Proof.
  revert arr. induction ts as [|t ts IH]; intros arr; simpl.
  - split; [intros [= <-]; done | by destruct arr].
  - destruct t as [s|s|es|ms]; try (split; [done | by destruct arr]).
    destruct (param_string_array_elems name ts) as [bad|arr'] eqn:Hrec.
    + split; [done|]. destruct arr as [|s' arr]; [done|].
      intros [= -> Hts]. apply IH in Hts. done.
    + split.
      * intros [= <-]. simpl. f_equal. by apply IH.
      * destruct arr as [|s' arr]; [done|]. intros [= -> Hts].
        apply IH in Hts. by injection Hts as ->.
Qed.

Lemma param_string_array_elems_first (name : string) (strs : list string)
    (t : jsmntok) (rest : list jsmntok) :
  (∀ s, t ≠ JSMN_STRING s) →
  param_string_array_elems name ((JSMN_STRING <$> strs) ++ t :: rest)
  = inl {| bp_name := name; bp_tok := t; bp_msg := "should be a string" |}.
Proof.
  intros Ht. induction strs as [|s strs IH].
  - simpl. destruct t; try done. by destruct (Ht text).
  - rewrite fmap_cons, <- app_comm_cons.
    change (match param_string_array_elems name
                    ((JSMN_STRING <$> strs) ++ t :: rest) with
            | inl bad => inl bad
            | inr arr => inr (s :: arr)
            end = inl {| bp_name := name; bp_tok := t;
                         bp_msg := "should be a string" |}).
    by rewrite IH.
Qed.

(** X1. [param_string_array] accepts exactly the arrays whose elements are
    all strings, and returns their texts in order; on an array with an
    element that is not a string it complains about the first such
    element; on a token that is not an array it complains about the
    token. *)
Theorem param_string_array_spec (name : string) (tok : jsmntok) :
  (∀ arr, param_string_array name tok = inr arr
          ↔ tok = JSMN_ARRAY (JSMN_STRING <$> arr))
  ∧ (∀ strs t rest,
        tok = JSMN_ARRAY ((JSMN_STRING <$> strs) ++ t :: rest) →
        (∀ s, t ≠ JSMN_STRING s) →
        param_string_array name tok
        = inl {| bp_name := name; bp_tok := t;
                 bp_msg := "should be a string" |})
  ∧ ((∀ ts, tok ≠ JSMN_ARRAY ts) →
     param_string_array name tok
     = inl {| bp_name := name; bp_tok := tok;
              bp_msg := "should be an array" |}).
Proof.
  split; [|split].
  - intros arr. destruct tok as [s|s|ts|ms]; simpl; try (split; done).
    rewrite param_string_array_elems_ok.
    split; [by intros -> | by intros [= ->]].
  - intros strs t rest -> Ht. simpl. by apply param_string_array_elems_first.
  - intros Hno. destruct tok as [s|s|ts|ms]; try done. by destruct (Hno ts).
Qed.

Section ParserProperties.
Context `{JsonParsers}.

Lemma json_to_zero_or_one_range (tok : jsmntok) (num : Z) :
  json_to_zero_or_one tok = Some num → num = 0 ∨ num = 1.
Proof.
  unfold json_to_zero_or_one. destruct (json_to_u32 tok) as [v|]; [|done].
  destruct (Z.eqb_spec v 0), (Z.eqb_spec v 1); simpl; intros [= <-]; auto.
Qed.

(** X2. [param_zero_or_one] accepts exactly the tokens that [json_to_u32]
    reads as 0 or as 1, and returns that number; on every other token it
    complains about the token. *)
Theorem param_zero_or_one_spec (name : string) (tok : jsmntok) :
  (∀ num, param_zero_or_one name tok = inr num
          ↔ json_to_u32 tok = Some num ∧ (num = 0 ∨ num = 1))
  ∧ (json_to_u32 tok ≠ Some 0 → json_to_u32 tok ≠ Some 1 →
     param_zero_or_one name tok
     = inl {| bp_name := name; bp_tok := tok;
              bp_msg := "should be 0 or 1" |}).
Proof.
  unfold param_zero_or_one, json_to_zero_or_one.
  destruct (json_to_u32 tok) as [v|]; simpl.
  - split.
    + intros num. split.
      * destruct (Z.eqb_spec v 0), (Z.eqb_spec v 1); simpl;
          intros [= <-]; auto.
      * intros [[= ->] [-> | ->]]; done.
    + intros Hzero Hone.
      destruct (Z.eqb_spec v 0) as [->|]; [done|].
      destruct (Z.eqb_spec v 1) as [->|]; done.
  - split; [|done]. intros num. split; [done|]. by intros [? _].
Qed.

Lemma parse_reserve_path_direction (name : string) (tok : jsmntok)
    (entry : (Z * Z) * Z) :
  json_scan_stores_parsed →
  parse_reserve_path name tok = inr entry → entry.1.2 = 0 ∨ entry.1.2 = 1.
Proof.
  intros Hscan. unfold parse_reserve_path.
  destruct (json_scan tok _ _) as [err|values] eqn:Hrun; [done|].
  apply Hscan in Hrun.
  destruct values as [|scid [|dir [|amount [|? ?]]]]; try done.
  intros [= <-]. simpl.
  apply Forall2_cons_1 in Hrun as [_ Hrun].
  apply Forall2_cons_1 in Hrun as [[t Ht] _].
  by eapply json_to_zero_or_one_range.
Qed.

Lemma param_reserve_path_elems_ok (name : string) (ts : list jsmntok)
    (entries : list ((Z * Z) * Z)) :
  param_reserve_path_elems name ts = inr entries
  ↔ Forall2 (λ t e, parse_reserve_path name t = inr e) ts entries.
Proof.
  revert entries. induction ts as [|t ts IH]; intros entries; simpl.
  - split; [intros [= <-]; constructor | by intros ->%Forall2_nil_inv_l].
  - destruct (parse_reserve_path name t) as [bad|e] eqn:Ht.
    + split; [done|].
      intros (e' & es & He & _ & _)%Forall2_cons_inv_l. congruence.
    + destruct (param_reserve_path_elems name ts) as [bad|es] eqn:Hrec.
      * split; [done|]. intros (e' & es' & _ & Hes & _)%Forall2_cons_inv_l.
        apply IH in Hes. done.
      * split.
        -- intros [= <-]. constructor; [done | by apply IH].
        -- intros (e' & es' & He & Hes & ->)%Forall2_cons_inv_l.
           apply IH in Hes. congruence.
Qed.

Lemma param_reserve_path_elems_first (name : string) (oks : list jsmntok)
    (t : jsmntok) (rest : list jsmntok) (bad : badparam) :
  Forall (λ t, ∃ e, parse_reserve_path name t = inr e) oks →
  parse_reserve_path name t = inl bad →
  param_reserve_path_elems name (oks ++ t :: rest) = inl bad.
Proof.
  intros Hoks Ht. induction Hoks as [|t' oks [e He] _ IH]; simpl.
  - by rewrite Ht.
  - by rewrite He, IH.
Qed.

(** X3. Given a [json_scan] that returns only values its parsers accepted:
    when [param_reserve_path] accepts a token, the token is an array, the
    two arrays of the path have one slot per element, slot i holds what
    [parse_reserve_path] read from element i, and every direction is 0 or
    1; when an element fails after elements that parse, the complaint is
    the one of the first failing element. *)
Theorem param_reserve_path_tok_spec (name : string) (tok : jsmntok) :
  json_scan_stores_parsed →
  (∀ path,
      param_reserve_path_tok name tok = inr path →
      ∃ ts, tok = JSMN_ARRAY ts
            ∧ length (rp_scidds path) = length ts
            ∧ length (rp_amounts path) = length ts
            ∧ Forall2 (λ t e, parse_reserve_path name t = inr e) ts
                      (zip (rp_scidds path) (rp_amounts path))
            ∧ Forall (λ scidd : Z * Z, scidd.2 = 0 ∨ scidd.2 = 1)
                     (rp_scidds path))
  ∧ (∀ oks t rest bad,
        tok = JSMN_ARRAY (oks ++ t :: rest) →
        Forall (λ t, ∃ e, parse_reserve_path name t = inr e) oks →
        parse_reserve_path name t = inl bad →
        param_reserve_path_tok name tok = inl bad).
Proof.
  intros Hscan. split.
  - intros path. destruct tok as [s|s|ts|ms]; simpl; try done.
    destruct (param_reserve_path_elems name ts) as [bad|entries] eqn:Hrun;
      [done|].
    intros [= <-]. apply param_reserve_path_elems_ok in Hrun.
    exists ts. simpl. rewrite !length_fmap, zip_fst_snd.
    pose proof (Forall2_length _ _ _ Hrun) as Hlen.
    split; [done|]. split; [done|]. split; [done|]. split; [done|].
    apply Forall_fmap. clear Hlen.
    induction Hrun as [|t e ts es He _ IH]; constructor; [|done].
    simpl. by eapply parse_reserve_path_direction.
  - intros oks t rest bad -> Hoks Ht. simpl.
    by rewrite (param_reserve_path_elems_first name oks t rest bad).
Qed.

End ParserProperties.

Lemma sample_json_scan_stores_parsed : @json_scan_stores_parsed sample_parsers.
Proof.
  intros tok guide parsers values. simpl. unfold sample_json_scan.
  destruct tok as [s|s|ts|members]; try done.
  case_bool_decide as Hlen; [|done].
  destruct (mapM _ _) as [vs|] eqn:Hm; [|done]. intros [= <-].
  apply mapM_Some in Hm.
  revert members vs Hlen Hm.
  induction parsers as [|p parsers IH]; intros members vs Hlen Hm.
  - destruct members; [|done]. simpl in Hm.
    apply Forall2_nil_inv_l in Hm as ->. constructor.
  - destruct members as [|m members]; [done|]. simpl in *.
    apply Forall2_cons_inv_l in Hm as (v & vs' & Hv & Hvs & ->).
    constructor; [by exists m.2|]. apply (IH members); [lia|done].
Qed.

(** X3 on a path of two elements, and on one whose second element has
    direction 2: the complaint is about that element. *)
Lemma param_reserve_path_tok_spec_witness :
  let ok := sample_reserve_entry "700" "1" "25" in
  let bad := sample_reserve_entry "700" "2" "25" in
  let tok := JSMN_ARRAY [ok; sample_reserve_entry "3" "0" "4"] in
  @param_reserve_path_tok sample_parsers "path" tok
  = inr {| rp_scidds := [(700, 1); (3, 0)]; rp_amounts := [25; 4] |}
  ∧ @param_reserve_path_tok sample_parsers "path" (JSMN_ARRAY [ok; bad; ok])
    = inl {| bp_name := "path"; bp_tok := bad; bp_msg := "parse failed" |}
  ∧ (∀ path,
        @param_reserve_path_tok sample_parsers "path" tok = inr path →
        ∃ ts, tok = JSMN_ARRAY ts
              ∧ length (rp_scidds path) = length ts
              ∧ length (rp_amounts path) = length ts
              ∧ Forall2 (λ t e, @parse_reserve_path sample_parsers "path" t
                                = inr e) ts
                        (zip (rp_scidds path) (rp_amounts path))
              ∧ Forall (λ scidd : Z * Z, scidd.2 = 0 ∨ scidd.2 = 1)
                       (rp_scidds path)).
Proof.
  intros ok bad tok.
  split; [reflexivity|]. split; [reflexivity|].
  exact (proj1 (@param_reserve_path_tok_spec sample_parsers "path" tok
                  sample_json_scan_stores_parsed)).
Defined.

(** ** The capacity cache and the plugin state *)

(** The names of the layers after a handler: the domain of an updated store
    of layers. *)
Ltac layer_names :=
  simpl;
  rewrite ?insert_insert_eq, ?dom_insert_L, ?(left_id_L ∅ (∪));
  try done.

Section StateProperties.
Context `{Fp16Codec}.

Lemma get_capacities_chans_length (cs : list gossmap_chan) (caps : list Z) :
  length (get_capacities_chans cs caps) = length caps.
Proof.
  revert caps. induction cs as [|c cs IH]; intros caps; [done|].
  simpl. by rewrite IH, length_insert.
Qed.

(** X4. On a graph whose channel indices are distinct, [get_capacities]
    returns an array of [gossmap_max_chan_idx] entries; the entry of a
    channel is its capacity in satoshi compressed with rounding up, that
    of 0 satoshi when the capacity lookup fails; every entry that is the
    index of no channel is 0. *)
Theorem get_capacities_contents (g : gossmap) :
  NoDup (chan_idx <$> gm_chans g) →
  length (get_capacities g) = gossmap_max_chan_idx g
  ∧ (∀ c, c ∈ gm_chans g →
          get_capacities g !! gossmap_chan_idx c
          = Some (u64_to_fp16 (default 0 (gossmap_chan_get_capacity c)) true))
  ∧ (∀ i, i ∉ chan_idx <$> gm_chans g →
          (i < gossmap_max_chan_idx g)%nat →
          get_capacities g !! i = Some 0).
Proof.
  intros Hnd. unfold get_capacities. split; [|split].
  - by rewrite get_capacities_chans_length, length_replicate.
  - intros c Hc. by apply get_capacities_lookup.
  - intros i Hi Hlt. rewrite get_capacities_chans_other by done.
    by apply lookup_replicate_2.
Qed.

(** X6. What a handler never writes to, for every request whose handling
    is defined (a getroutes that [param] accepts has none). The layers
    change only under disable-node, create-channel, inform-channel and
    age; the reservation table only under reserve and unreserve; the
    graph and the shared capacity cache under none of them. A request
    that does not report success leaves the whole state as it was, unless
    it is a reserve or an unreserve, which keep the entries applied before
    the failing one. *)
Theorem handle_frame (a a' : askrene) (req : request) (r : reply) :
  handle a req = defined (a', r) →
  (request_part req ≠ part_layers → a_layers a' = a_layers a)
  ∧ (request_part req ≠ part_reserved → a_reserved a' = a_reserved a)
  ∧ a_gossmap a' = a_gossmap a
  ∧ a_capacities a' = a_capacities a
  ∧ (request_part req ≠ part_reserved → succeeded r = false → a' = a).
Proof.
  destruct req as [p|p|p|p|chk p|chk now p|p|p]; simpl.
  - destruct p as [p|]; simpl; [by rewrite get_routes_unfold|].
    by intros [= <- <-].
  - intros [= <- <-]. destruct p as [entries|]; simpl; [|done].
    unfold json_askrene_reserve.
    destruct (reserves_add _ _ _ _) as [reserved num].
    by case_bool_decide.
  - intros [= Hr]. revert Hr. unfold json_askrene_unreserve.
    destruct p as [entries|]; [|by intros [= <- <-]].
    destruct (reserves_remove _ _ _ _) as [reserved num].
    by case_bool_decide; intros [= <- <-].
  - intros [= Hr]. revert Hr. unfold json_askrene_disable_node.
    destruct p as [[layername node]|]; [|by intros [= <- <-]].
    by destruct (find_layer a layername); intros [= <- <-].
  - intros [= <- <-]. unfold json_askrene_create_channel.
    destruct p as [p|]; [|done].
    destruct (create_channel_conflict a p); [done|].
    destruct chk; [done|]. by destruct (find_layer a (cc_layer p)).
  - intros [= <- <-]. unfold json_askrene_inform_channel.
    destruct p as [p|]; [|done].
    destruct (ic_minimum_msat p), (ic_maximum_msat p); simpl; try done;
      destruct chk; try done; by destruct (find_layer a (ic_layer p)).
  - intros [= Hr]. revert Hr. unfold json_askrene_listlayers.
    by destruct p; intros [= <- <-].
  - intros [= Hr]. revert Hr. unfold json_askrene_age.
    destruct p as [[[tok layername] cutoff]|]; [|by intros [= <- <-]].
    unfold param_known_layer.
    destruct (find_layer a layername); [|by intros [= <- <-]].
    by intros [= <- <-].
Qed.

(** X7. For every request whose handling is defined, the layer names
    after it are those before it, and the layer the request names when
    the request is a disable-node, or a create-channel or inform-channel
    that is not check-only, and it succeeds. No other request creates a
    layer (not age), and no request removes one. *)
Theorem handle_layer_names (a a' : askrene) (req : request) (r : reply) :
  handle a req = defined (a', r) →
  dom (a_layers a')
  = (if succeeded r
     then from_option singleton ∅ (request_layer req)
     else ∅) ∪ dom (a_layers a).
Proof.
  destruct req as [p|p|p|p|chk p|chk now p|p|p]; simpl.
  - destruct p as [p|]; simpl; [by rewrite get_routes_unfold|].
    intros [= <- <-]. layer_names.
  - intros [= <- <-]. destruct p as [entries|]; simpl; [|layer_names].
    unfold json_askrene_reserve.
    destruct (reserves_add _ _ _ _) as [reserved num].
    case_bool_decide; layer_names.
  - intros [= Hr]. revert Hr. unfold json_askrene_unreserve.
    destruct p as [entries|]; [|intros [= <- <-]; layer_names].
    destruct (reserves_remove _ _ _ _) as [reserved num].
    case_bool_decide; intros [= <- <-]; layer_names.
  - intros [= Hr]. revert Hr. unfold json_askrene_disable_node.
    destruct p as [[layername node]|]; [|intros [= <- <-]; layer_names].
    destruct (find_layer a layername); intros [= <- <-]; layer_names.
  - intros [= <- <-]. unfold json_askrene_create_channel.
    destruct p as [p|]; simpl; [|destruct chk; layer_names].
    destruct (create_channel_conflict a p); simpl;
      [destruct chk; layer_names|].
    destruct chk; simpl; [layer_names|].
    destruct (find_layer a (cc_layer p)); layer_names.
  - intros [= <- <-]. unfold json_askrene_inform_channel.
    destruct p as [p|]; simpl; [|destruct chk; layer_names].
    destruct (ic_minimum_msat p), (ic_maximum_msat p); simpl;
      destruct chk; simpl; try layer_names;
      destruct (find_layer a (ic_layer p)); layer_names.
  - intros [= Hr]. revert Hr. unfold json_askrene_listlayers.
    destruct p; intros [= <- <-]; layer_names.
  - intros [= Hr]. revert Hr. unfold json_askrene_age.
    destruct p as [[[tok layername] cutoff]|];
      [|intros [= <- <-]; layer_names].
    unfold param_known_layer.
    destruct (find_layer a layername) as [l|] eqn:Hl;
      [|intros [= <- <-]; layer_names].
    intros [= <- <-]. layer_names.
    apply subseteq_union_1_L, singleton_subseteq_l.
    by apply (elem_of_dom_2 (a_layers a) _ l).
Qed.

End StateProperties.

(** X4 on a graph with indices 0 and 2 in use: three entries, the unused
    one and the one of the channel without capacity are 0. *)
Lemma get_capacities_contents_witness :
  let g := {| gm_chans := [sample_chan_at 0 7 (Some 1000);
                           sample_chan_at 2 9 None];
              gm_unread := []; gm_saved := None |} in
  @get_capacities common_fp16 g = [common_u64_to_fp16 1000 true; 0; 0]
  ∧ NoDup (chan_idx <$> gm_chans g)
  ∧ length (@get_capacities common_fp16 g) = gossmap_max_chan_idx g
  ∧ (∀ c, c ∈ gm_chans g →
          @get_capacities common_fp16 g !! gossmap_chan_idx c
          = Some (common_u64_to_fp16
                    (default 0 (gossmap_chan_get_capacity c)) true))
  ∧ (∀ i, i ∉ chan_idx <$> gm_chans g →
          (i < gossmap_max_chan_idx g)%nat →
          @get_capacities common_fp16 g !! i = Some 0).
Proof.
  intros g.
  assert (Hnd : NoDup (chan_idx <$> gm_chans g))
    by (apply (bool_decide_unpack _); vm_compute; exact I).
  split; [reflexivity|]. split; [exact Hnd|].
  exact (@get_capacities_contents common_fp16 g Hnd).
Defined.

(** X6 and X7 on an inform-channel that creates layer "l", and on an age
    that names an unknown layer. *)
Lemma handle_frame_witness :
  let a := sample_askrene [sample_chan 7 (Some 1000)] [] ∅ ∅ in
  let req := req_inform_channel false 2000
               (Some (sample_inform None (Some 100))) in
  let r := json_askrene_inform_channel a false 2000
             (Some (sample_inform None (Some 100))) in
  @handle common_fp16 a req = defined (r.1, reply_result r.2)
  ∧ a_layers r.1 ≠ a_layers a
  ∧ (request_part req ≠ part_layers → a_layers r.1 = a_layers a)
  ∧ (request_part req ≠ part_reserved → a_reserved r.1 = a_reserved a)
  ∧ a_gossmap r.1 = a_gossmap a
  ∧ a_capacities r.1 = a_capacities a
  ∧ (request_part req ≠ part_reserved →
     succeeded (reply_result r.2) = false → r.1 = a).
Proof.
  intros a req r. split; [reflexivity|]. split; [discriminate|].
  exact (@handle_frame common_fp16 a r.1 req (reply_result r.2) eq_refl).
Defined.

Lemma handle_layer_names_witness :
  let a := sample_askrene [sample_chan 7 (Some 1000)] [] ∅ ∅ in
  let req := req_inform_channel false 2000
               (Some (sample_inform None (Some 100))) in
  let r := json_askrene_inform_channel a false 2000
             (Some (sample_inform None (Some 100))) in
  let age := req_age (Some (JSMN_STRING "m", "m", 3000)) in
  @handle common_fp16 r.1 age
  = defined (r.1, reply_badparam "layer" "Unknown layer")
  ∧ dom (a_layers r.1) = {[ "l" ]} ∪ dom (a_layers a)
  ∧ dom (a_layers r.1) = ∅ ∪ dom (a_layers r.1).
Proof.
  intros a req r age. split; [reflexivity|]. split.
  - exact (@handle_layer_names common_fp16 a r.1 req (reply_result r.2)
             eq_refl).
  - exact (@handle_layer_names common_fp16 r.1 r.1 age
             (reply_badparam "layer" "Unknown layer") eq_refl).
Defined.

(** ** Queries *)

Lemma foldr_max_ge_init (m : Z) (l : list Z) : m ≤ foldr Z.max m l.
Proof. induction l as [|x l IH]; simpl; lia. Qed.

Lemma foldr_max_ge_elem (m x : Z) (l : list Z) : x ∈ l → x ≤ foldr Z.max m l.
Proof.
  induction l as [|y l IH]; [by intros ?%elem_of_nil|].
  intros [->|Hin]%elem_of_cons; simpl; [lia|]. specialize (IH Hin). lia.
Qed.

Lemma foldr_min_le_init (m : Z) (l : list Z) : foldr Z.min m l ≤ m.
Proof. induction l as [|x l IH]; simpl; lia. Qed.

Lemma foldr_min_le_elem (m x : Z) (l : list Z) : x ∈ l → foldr Z.min m l ≤ x.
Proof.
  induction l as [|y l IH]; [by intros ?%elem_of_nil|].
  intros [->|Hin]%elem_of_cons; simpl; [lia|]. specialize (IH Hin). lia.
Qed.

Lemma foldr_max_bound (m b : Z) (l : list Z) :
  m ≤ b → Forall (λ x, x ≤ b) l → foldr Z.max m l ≤ b.
Proof. intros Hm. induction 1; simpl; lia. Qed.

Lemma foldr_min_bound (m b : Z) (l : list Z) :
  b ≤ m → Forall (λ x, b ≤ x) l → b ≤ foldr Z.min m l.
Proof. intros Hm. induction 1; simpl; lia. Qed.

Lemma capacity_msat_range (chan : gossmap_chan) (m : Z) :
  capacity_msat chan = Some m →
  m ≤ U64_MAX ∧ (0 ≤ default 0 (gossmap_chan_get_capacity chan) → 0 ≤ m).
Proof.
  unfold capacity_msat, amount_sat_to_msat, MSAT_PER_SAT.
  destruct (gossmap_chan_get_capacity chan) as [cap|]; [|done]. simpl.
  destruct (Z.ltb_spec U64_MAX (cap * 1000)); [done|].
  intros [= <-]. split; [done|lia].
Qed.

Lemma max_limits_elem (ls : list layer) (scidd : Z * Z) (l : layer)
    (c : constraint) :
  l ∈ ls → layer_find_constraint l scidd CONSTRAINT_MAX = Some c →
  c_limit c ∈ max_limits ls scidd.
Proof.
  intros Hl Hc. unfold max_limits. apply list_elem_of_omap.
  exists l. split; [done|]. by rewrite Hc.
Qed.

Lemma min_limits_elem (ls : list layer) (scidd : Z * Z) (l : layer)
    (c : constraint) :
  l ∈ ls → layer_find_constraint l scidd CONSTRAINT_MIN = Some c →
  c_limit c ∈ min_limits ls scidd.
Proof.
  intros Hl Hc. unfold min_limits. apply list_elem_of_omap.
  exists l. split; [done|]. by rewrite Hc.
Qed.

(** The window honours every constraint of a selected layer. *)
Lemma constraints_window_honours (rq : route_query) (chan : gossmap_chan)
    (dir : Z) (l : layer) (c : constraint) :
  l ∈ rq_layers rq →
  (layer_find_constraint l (gossmap_chan_scid chan, dir) CONSTRAINT_MIN
   = Some c → c_limit c ≤ (constraints_window rq chan dir).1)
  ∧ (layer_find_constraint l (gossmap_chan_scid chan, dir) CONSTRAINT_MAX
     = Some c → (constraints_window rq chan dir).2 ≤ c_limit c).
Proof.
  intros Hl. rewrite constraints_window_eq, constraints_capacity_eq. simpl.
  split; intros Hc.
  - apply foldr_max_ge_elem. by eapply min_limits_elem.
  - pose proof (foldr_min_le_elem U64_MAX _ _
                  (max_limits_elem _ _ _ _ Hl Hc)) as Hle.
    destruct (Z.eqb_spec
                (foldr Z.min U64_MAX
                   (max_limits (rq_layers rq) (gossmap_chan_scid chan, dir)))
                U64_MAX) as [Heq|]; [|done].
    rewrite Heq in *.
    destruct (capacity_msat chan) as [m|] eqn:Hm; simpl; [|done].
    apply capacity_msat_range in Hm. lia.
Qed.

(** Adding entries to the table never removes a record, and every entry
    that is added leaves one. *)
Lemma reserve_add_one_present (reserved reserved' : reserve_hash)
    (scidd s : Z * Z) (amount : Z) :
  reserve_add_one reserved scidd amount = Some reserved' →
  is_Some (reserved !! s) ∨ s = scidd → is_Some (reserved' !! s).
Proof.
  unfold reserve_add_one. intros Hadd Hs.
  assert (Hins : ∀ r, is_Some (<[scidd := r]> reserved !! s)).
  { intros r. destruct (decide (scidd = s)) as [->|Hne].
    - rewrite lookup_insert_eq. eauto.
    - rewrite lookup_insert_ne by done. destruct Hs; congruence. }
  destruct (reserved !! scidd) as [r|].
  - destruct (amount_msat_add (r_amount r) amount); [|done].
    injection Hadd as <-. apply Hins.
  - injection Hadd as <-. apply Hins.
Qed.

Lemma reserves_add_from_present (path : list ((Z * Z) * Z))
    (reserved reserved' : reserve_hash) (i : nat) (s : Z * Z) :
  reserves_add_from reserved path i = (reserved', (i + length path)%nat) →
  is_Some (reserved !! s) ∨ s ∈ path.*1 → is_Some (reserved' !! s).
Proof.
  revert reserved i.
  induction path as [|[s' amount] path IH]; intros reserved i Hrun Hs.
  { injection Hrun as <- _. destruct Hs as [|Hs]; [done|].
    by apply elem_of_nil in Hs. }
  simpl in Hrun.
  destruct (reserve_add_one reserved s' amount) as [reserved1|] eqn:Hone.
  - apply (IH reserved1 (S i)).
    + rewrite Hrun. f_equal. simpl. lia.
    + destruct Hs as [Hs|Hs].
      * left. eapply reserve_add_one_present; eauto.
      * simpl in Hs. apply elem_of_cons in Hs as [->|Hs]; [|by right].
        left. eapply reserve_add_one_present; eauto.
  - injection Hrun as _ Hi. simpl in Hi. lia.
Qed.

(** The state that a carried-out inform-channel leaves. *)
Lemma json_askrene_inform_channel_stored (a : askrene) (now : Z)
    (p : inform_channel_params) (type : constraint_type) (limit : Z) :
  (ic_minimum_msat p, ic_maximum_msat p, type)
  = (Some limit, None, CONSTRAINT_MIN)
  ∨ (ic_minimum_msat p, ic_maximum_msat p, type)
    = (None, Some limit, CONSTRAINT_MAX) →
  let a' := (json_askrene_inform_channel a false now (Some p)).1 in
  a_reserved a' = a_reserved a
  ∧ a_gossmap a' = a_gossmap a
  ∧ a_capacities a' = a_capacities a
  ∧ ∃ l, find_layer a' (ic_layer p) = Some l
         ∧ layer_find_constraint l (ic_short_channel_id p, ic_direction p)
             type
           = Some {| c_limit := limit; c_timestamp := now |}.
Proof.
  intros Hp. unfold json_askrene_inform_channel.
  destruct Hp as [[= -> -> ->]|[= -> -> ->]]; simpl.
  all: destruct (find_layer a (ic_layer p)) as [l|]; simpl.
  all: do 3 (split; [done|]).
  all: eexists; rewrite find_layer_set_layer; case_decide; [|done].
  all: split; [done|]; unfold layer_find_constraint; simpl.
  all: by rewrite lookup_insert_eq.
Qed.

Section QueryProperties.
Context `{Fp16Codec}.

(** X9. The layers of the query context that [get_routes] builds are the
    layers found under the requested names, in the order of the request;
    names that find no layer are skipped, so there is at most one layer
    per name; the reservation table of the context is the one of the
    plugin. *)
Theorem get_routes_selects_known_layers (a : askrene) (source dest : node_id)
    (amount : Z) (layers : list string) :
  let rq := gr_rq (get_routes a source dest amount layers) in
  rq_layers rq = omap (find_layer a) layers
  ∧ (length (rq_layers rq) ≤ length layers)%nat
  ∧ (∀ l, l ∈ rq_layers rq ↔ ∃ name, name ∈ layers ∧ find_layer a name = Some l)
  ∧ rq_reserved rq = a_reserved a.
Proof.
  intros rq.
  destruct (get_routes_rq a source dest amount layers) as (Hr & Hl & _).
  fold rq in Hr, Hl. split; [done|]. split; [|split; [|done]].
  - rewrite Hl. clear. induction layers as [|n ns IH]; [done|].
    change (omap (find_layer a) (n :: ns))
      with (match find_layer a n with
            | Some l => l :: omap (find_layer a) ns
            | None => omap (find_layer a) ns
            end).
    destruct (find_layer a n); simpl length; lia.
  - intros l. rewrite Hl. apply list_elem_of_omap.
Qed.

Lemma get_routes_refresh_gossmap (a a' : askrene) :
  a_gossmap a' = a_gossmap a →
  a_gossmap (get_routes_refresh a') = a_gossmap (get_routes_refresh a).
Proof.
  intros Hg. unfold get_routes_refresh. rewrite Hg.
  by destruct (gossmap_refresh _).
Qed.

(** What a query context built by [get_routes] answers for a channel that
    the refreshed graph finds under its scid: a reservation is subtracted,
    and the limits of the selected layers are honoured. *)
Lemma get_routes_knowledge (a : askrene) (source dest : node_id)
    (amount : Z) (layers : list string) (chan : gossmap_chan) (dir : Z) :
  let a' := get_routes_refresh a in
  let rq := gr_rq (get_routes a source dest amount layers) in
  let scidd := (gossmap_chan_scid chan, dir) in
  gossmap_find_chan (a_gossmap a') (gossmap_chan_scid chan) = Some chan →
  (∀ reserve, find_reserve (a_reserved a) scidd = Some reserve →
     get_constraints rq chan dir
     = (saturating_sub (constraints_window rq chan dir).1 (r_amount reserve),
        saturating_sub (constraints_window rq chan dir).2 (r_amount reserve)))
  ∧ (∀ name l c,
       name ∈ layers → find_layer a name = Some l →
       layer_find_constraint l scidd CONSTRAINT_MAX = Some c →
       0 ≤ c_limit c → 0 ≤ reserved_amount (a_reserved a) scidd →
       (get_constraints rq chan dir).2 ≤ c_limit c)
  ∧ (∀ name l c,
       name ∈ layers → find_layer a name = Some l →
       layer_find_constraint l scidd CONSTRAINT_MIN = Some c →
       c_limit c - reserved_amount (a_reserved a) scidd
       ≤ (get_constraints rq chan dir).1).
Proof.
  intros a' rq scidd Hfind. subst scidd.
  destruct (get_routes_rq a source dest amount layers) as (Hres & Hls & _).
  fold rq in Hres, Hls.
  assert (Hsel : ∀ name l, name ∈ layers → find_layer a name = Some l →
                           l ∈ rq_layers rq).
  { intros name l Hn Hl. rewrite Hls. apply list_elem_of_omap. eauto. }
  assert (Hslow : ∀ name l c t, name ∈ layers → find_layer a name = Some l →
            layer_find_constraint l (gossmap_chan_scid chan, dir) t = Some c →
            get_constraints rq chan dir
            = constraints_reserve (rq_reserved rq)
                (gossmap_chan_scid chan, dir)
                (constraints_window rq chan dir)).
  { intros name l c t Hn Hl Hc.
    rewrite get_constraints_slow_path; [done|].
    apply (get_routes_known_slow_path a source dest amount layers chan Hfind).
    right. left. exists l, dir, t. split; [by eapply Hsel|]. by exists c. }
  split; [|split].
  - intros reserve Hr.
    rewrite get_constraints_slow_path.
    + unfold get_constraints_slow.
      destruct (constraints_window rq chan dir) as [mn mx].
      by rewrite constraints_reserve_eq, Hres, Hr.
    + apply (get_routes_known_slow_path a source dest amount layers chan
               Hfind).
      left. exists dir. fold rq. rewrite Hres. by exists reserve.
  - intros name l c Hn Hl Hc Hlim Hr.
    rewrite (Hslow name l c _ Hn Hl Hc).
    destruct (constraints_window_honours rq chan dir l c (Hsel _ _ Hn Hl))
      as [_ Hmax].
    specialize (Hmax Hc).
    destruct (constraints_window rq chan dir) as [mn mx]. simpl in Hmax.
    rewrite constraints_reserve_eq, Hres.
    unfold reserved_amount, find_reserve, saturating_sub in *.
    destruct (a_reserved a !! (gossmap_chan_scid chan, dir)) as [r|];
      simpl in *; lia.
  - intros name l c Hn Hl Hc.
    rewrite (Hslow name l c _ Hn Hl Hc).
    destruct (constraints_window_honours rq chan dir l c (Hsel _ _ Hn Hl))
      as [Hmin _].
    specialize (Hmin Hc).
    destruct (constraints_window rq chan dir) as [mn mx]. simpl in Hmin.
    rewrite constraints_reserve_eq, Hres.
    unfold reserved_amount, find_reserve, saturating_sub in *.
    destruct (a_reserved a !! (gossmap_chan_scid chan, dir)) as [r|];
      simpl in *; lia.
Qed.

(** X11. The fast path is sound inside a query: when the context that
    [get_routes] builds answers a channel of the graph from the capacity
    cache, nothing is reserved on its scid in either direction, no
    selected layer holds a constraint on it, and no selected layer
    overrides it with a local channel. *)
Theorem get_routes_fast_path_sound (a : askrene) (source dest : node_id)
    (amount : Z) (layers : list string) (chan : gossmap_chan) (cap : Z) :
  let rq := gr_rq (get_routes a source dest amount layers) in
  let scid := gossmap_chan_scid chan in
  gossmap_find_chan (a_gossmap (get_routes_refresh a)) scid = Some chan →
  rq_capacities rq !! gossmap_chan_idx chan = Some cap →
  cap ≠ 0 →
  (∀ dir, get_constraints rq chan dir = (0, u64 (fp16_to_u64 cap * 1000)))
  ∧ (∀ dir, find_reserve (a_reserved a) (scid, dir) = None)
  ∧ (∀ name l, name ∈ layers → find_layer a name = Some l →
               (∀ dir type, layer_find_constraint l (scid, dir) type = None)
               ∧ layer_find_local_channel l scid = None).
Proof.
  intros rq scid Hfind Hcap Hne.
  destruct (get_routes_rq a source dest amount layers) as (Hres & Hls & _).
  fold rq in Hres, Hls.
  assert (Hfast : ¬ slow_path rq chan).
  { intros [Hs|Hs]; rewrite Hcap in Hs; congruence. }
  assert (Hknown := get_routes_known_slow_path a source dest amount layers
                      chan Hfind).
  fold rq in Hknown.
  split; [|split].
  - intros dir. by apply get_constraints_fast.
  - intros dir. rewrite <- Hres.
    destruct (find_reserve (rq_reserved rq) (scid, dir)) as [r|] eqn:Hr;
      [|done].
    destruct Hfast. apply Hknown. left. exists dir.
    unfold scid in Hr. by rewrite Hr.
  - intros name l Hn Hl.
    assert (Hsel : l ∈ rq_layers rq).
    { rewrite Hls. apply list_elem_of_omap. eauto. }
    split.
    + intros dir type.
      destruct (layer_find_constraint l (scid, dir) type) as [c|] eqn:Hc;
        [|done].
      destruct Hfast. apply Hknown. right. left. exists l, dir, type.
      split; [done|]. unfold scid in Hc. by rewrite Hc.
    + destruct (layer_find_local_channel l scid) as [lc|] eqn:Hlc; [|done].
      destruct Hfast. apply Hknown. right. right. exists l.
      split; [done|]. unfold scid in Hlc. by rewrite Hlc.
Qed.

(** X12. Reserve, then query. After an askrene-reserve that succeeds, a
    query answers a channel of the graph named in the path, whatever the
    capacity cache held for it, with the window of the layers and the
    capacity less everything reserved on that scidd: what was reserved
    before plus what the path asked, both bounds clamped at 0. *)
Theorem reserve_then_query (a a1 : askrene) (entries : list ((Z * Z) * Z))
    (source dest : node_id) (amount : Z) (layers : list string)
    (chan : gossmap_chan) (dir : Z) :
  let scidd := (gossmap_chan_scid chan, dir) in
  let rq := gr_rq (get_routes a1 source dest amount layers) in
  let held := reserved_amount (a_reserved a) scidd
              + path_amount entries scidd in
  json_askrene_reserve a (Some entries)
  = (a1, command_finished resp_empty) →
  scidd ∈ entries.*1 →
  gossmap_find_chan (a_gossmap (get_routes_refresh a))
                    (gossmap_chan_scid chan) = Some chan →
  get_constraints rq chan dir
  = (saturating_sub (constraints_window rq chan dir).1 held,
     saturating_sub (constraints_window rq chan dir).2 held).
Proof.
  intros scidd rq held Hcmd Hin Hfind.
  unfold json_askrene_reserve, param_reserve_path, reserves_add in Hcmd.
  simpl in Hcmd. rewrite !length_fmap, zip_fst_snd, firstn_all in Hcmd.
  destruct (reserves_add_from (a_reserved a) entries 0)
    as [reserved num] eqn:Hrun.
  case_bool_decide as Hnum; [done|]. injection Hcmd as <-.
  subst num.
  destruct (reserves_add_from_spec _ _ _ _ _ Hrun)
    as (k & Hk & _ & Hamt & _).
  simpl in Hk. subst k. rewrite firstn_all in Hamt.
  destruct (reserves_add_from_present entries (a_reserved a) reserved 0
              scidd Hrun) as [r Hr]; [by right|].
  assert (Hheld : r_amount r = held).
  { unfold held. rewrite <- Hamt. unfold reserved_amount. by rewrite Hr. }
  rewrite <- Hheld.
  apply (get_routes_knowledge (set_reserved a reserved) source dest amount
           layers chan dir); [|done].
  by rewrite (get_routes_refresh_gossmap a).
Qed.

(** X13. Inform, then query. After an inform-channel that is carried out,
    a query that selects the layer honours the limit for a channel of the
    graph, whatever the other selected layers hold and whatever the
    capacity cache held: a maximum bounds the upper end of the window from
    above, a minimum less the amount reserved bounds the lower end from
    below. *)
Theorem inform_channel_then_query (a : askrene) (now : Z)
    (p : inform_channel_params) (source dest : node_id) (amount : Z)
    (layers : list string) (chan : gossmap_chan) :
  let a1 := (json_askrene_inform_channel a false now (Some p)).1 in
  let rq := gr_rq (get_routes a1 source dest amount layers) in
  let scidd := (ic_short_channel_id p, ic_direction p) in
  ic_short_channel_id p = gossmap_chan_scid chan →
  gossmap_find_chan (a_gossmap (get_routes_refresh a))
                    (gossmap_chan_scid chan) = Some chan →
  ic_layer p ∈ layers →
  (∀ limit, ic_minimum_msat p = None → ic_maximum_msat p = Some limit →
            0 ≤ limit → 0 ≤ reserved_amount (a_reserved a) scidd →
            (get_constraints rq chan (ic_direction p)).2 ≤ limit)
  ∧ (∀ limit, ic_minimum_msat p = Some limit → ic_maximum_msat p = None →
              limit - reserved_amount (a_reserved a) scidd
              ≤ (get_constraints rq chan (ic_direction p)).1).
Proof.
  intros a1 rq scidd Hscid Hfind Hlayer. subst scidd. rewrite Hscid.
  assert (Hknow := get_routes_knowledge a1 source dest amount layers chan
                     (ic_direction p)).
  simpl in Hknow. fold rq in Hknow.
  split.
  - intros limit Hmin Hmax Hlim Hres.
    destruct (json_askrene_inform_channel_stored a now p CONSTRAINT_MAX limit)
      as (Hr & Hg & _ & l & Hl & Hc);
      [right; by rewrite Hmin, Hmax|].
    fold a1 in Hr, Hg, Hl.
    destruct Hknow as (_ & Hhon & _);
      [by rewrite (get_routes_refresh_gossmap a)|].
    rewrite Hscid in Hc.
    apply (Hhon _ _ _ Hlayer Hl Hc); [done|by rewrite Hr].
  - intros limit Hmin Hmax.
    destruct (json_askrene_inform_channel_stored a now p CONSTRAINT_MIN limit)
      as (Hr & Hg & _ & l & Hl & Hc);
      [left; by rewrite Hmin, Hmax|].
    fold a1 in Hr, Hg, Hl.
    destruct Hknow as (_ & _ & Hhon);
      [by rewrite (get_routes_refresh_gossmap a)|].
    rewrite Hscid in Hc. rewrite <- Hr.
    apply (Hhon _ _ _ Hlayer Hl Hc).
Qed.

(** X14. The bounds [get_constraints] writes are amounts of 64 bits: when
    the limits of the selected layers, the capacity and the amount
    reserved are in range, so are both results, on the fast path and on
    the slow one; no step of the slow path wraps. *)
Theorem get_constraints_range (rq : route_query) (chan : gossmap_chan)
    (dir : Z) :
  let scidd := (gossmap_chan_scid chan, dir) in
  Forall (λ limit, limit ≤ U64_MAX) (min_limits (rq_layers rq) scidd) →
  Forall (λ limit, 0 ≤ limit) (max_limits (rq_layers rq) scidd) →
  0 ≤ default 0 (gossmap_chan_get_capacity chan) →
  0 ≤ reserved_amount (rq_reserved rq) scidd →
  0 ≤ (get_constraints rq chan dir).1 ≤ U64_MAX
  ∧ 0 ≤ (get_constraints rq chan dir).2 ≤ U64_MAX.
Proof.
  intros scidd Hmin Hmax Hcap Hres.
  assert (Hu : 0 < 2 ^ 64) by done.
  unfold get_constraints.
  assert (Hslow : 0 ≤ (get_constraints_slow rq chan dir).1 ≤ U64_MAX
                  ∧ 0 ≤ (get_constraints_slow rq chan dir).2 ≤ U64_MAX).
  { unfold get_constraints_slow.
    rewrite constraints_window_eq, constraints_capacity_eq,
      constraints_reserve_eq.
    fold scidd.
    pose proof (foldr_max_ge_init 0 (min_limits (rq_layers rq) scidd)).
    pose proof (foldr_max_bound 0 U64_MAX (min_limits (rq_layers rq) scidd)
                  ltac:(done) Hmin).
    pose proof (foldr_min_le_init U64_MAX (max_limits (rq_layers rq) scidd)).
    pose proof (foldr_min_bound U64_MAX 0 (max_limits (rq_layers rq) scidd)
                  ltac:(done) Hmax).
    set (mn := foldr Z.max 0 _) in *. set (m := foldr Z.min U64_MAX _) in *.
    assert (Hmx : 0 ≤ (if m =? U64_MAX then default m (capacity_msat chan)
                       else m) ≤ U64_MAX).
    { destruct (Z.eqb_spec m U64_MAX); [|lia].
      destruct (capacity_msat chan) as [cm|] eqn:Hcm; simpl; [|lia].
      apply capacity_msat_range in Hcm. lia. }
    unfold reserved_amount, find_reserve in *.
    destruct (rq_reserved rq !! scidd) as [r|]; simpl in *.
    - unfold saturating_sub. lia.
    - lia. }
  destruct (rq_capacities rq !! gossmap_chan_idx chan) as [cap|]; [|done].
  destruct (negb (cap =? 0)); [|done]. simpl. unfold u64, U64_MAX.
  pose proof (Z.mod_pos_bound (fp16_to_u64 cap * 1000) (2 ^ 64) Hu). lia.
Qed.

End QueryProperties.

(** X16. Selecting one more layer never lowers the lower end of the
    window. It never raises the upper end when a MAX limit below 2^64-1 is
    already in force; when no MAX limit is, the upper end becomes the
    limit of the added layer whatever the capacity, so it can rise above
    the capacity. *)
Theorem constraints_window_add_layer (rq : route_query) (chan : gossmap_chan)
    (dir : Z) (l : layer) :
  let scidd := (gossmap_chan_scid chan, dir) in
  let rq' := rq_with_layers rq (rq_layers rq ++ [l]) in
  (constraints_window rq chan dir).1 ≤ (constraints_window rq' chan dir).1
  ∧ (foldr Z.min U64_MAX (max_limits (rq_layers rq) scidd) < U64_MAX →
     (constraints_window rq' chan dir).2 ≤ (constraints_window rq chan dir).2)
  ∧ (max_limits (rq_layers rq) scidd = [] →
     ∀ c, layer_find_constraint l scidd CONSTRAINT_MAX = Some c →
          c_limit c < U64_MAX →
          (constraints_window rq' chan dir).2 = c_limit c).
Proof.
  intros scidd rq'. rewrite !constraints_window_eq, !constraints_capacity_eq.
  simpl. fold scidd. unfold min_limits, max_limits. rewrite !omap_app. simpl.
  fold (min_limits (rq_layers rq) scidd) (max_limits (rq_layers rq) scidd).
  split; [|split].
  - destruct (layer_find_constraint l scidd CONSTRAINT_MIN) as [c|]; simpl.
    + rewrite foldr_app. simpl. rewrite Z.max_comm, foldr_max_init. lia.
    + by rewrite app_nil_r.
  - intros Hlt.
    destruct (layer_find_constraint l scidd CONSTRAINT_MAX) as [c|]; simpl.
    + rewrite foldr_app. simpl. rewrite Z.min_comm, foldr_min_init.
      set (m := foldr Z.min U64_MAX _) in *.
      destruct (Z.eqb_spec m U64_MAX); [lia|].
      destruct (Z.eqb_spec (Z.min (c_limit c) m) U64_MAX); lia.
    + by rewrite app_nil_r.
  - intros -> c -> Hc. simpl.
    destruct (Z.eqb_spec (Z.min (c_limit c) U64_MAX) U64_MAX); lia.
Qed.

(** *** The query properties at concrete states *)

(** X11: channel 9 is reserved and channel 7 is not; the cache of the
    query keeps the entry of channel 7 and clears that of channel 9. *)
Lemma get_routes_fast_path_sound_witness :
  let a := sample_askrene [sample_chan 7 (Some 1000);
                           sample_chan_at 1 9 (Some 5)] [] ∅
             (sample_reserved (9, 0) 30) in
  let chan := sample_chan 7 (Some 1000) in
  let cap := common_u64_to_fp16 1000 true in
  let rq := gr_rq (@get_routes common_fp16 a 2 3 1000 []) in
  rq_capacities rq = [cap; 0]
  ∧ (∀ dir, @get_constraints common_fp16 rq chan dir
            = (0, u64 (common_fp16_to_u64 cap * 1000)))
  ∧ (∀ dir, find_reserve (a_reserved a) (7, dir) = None)
  ∧ (∀ name l, name ∈ [] → find_layer a name = Some l →
               (∀ dir type, layer_find_constraint l (7, dir) type = None)
               ∧ layer_find_local_channel l 7 = None).
Proof.
  intros a chan cap rq. split; [reflexivity|].
  apply (@get_routes_fast_path_sound common_fp16 a 2 3 1000 [] chan cap).
  - reflexivity.
  - reflexivity.
  - vm_compute. discriminate.
Defined.

(** X12: 300000 msat reserved on (7, 0), a channel of 1000 sat. The query
    answers direction 0 with the capacity less the reservation, and
    direction 1 with the exact capacity. *)
Lemma reserve_then_query_witness :
  let a := sample_askrene [sample_chan 7 (Some 1000)] [] ∅ ∅ in
  let chan := sample_chan 7 (Some 1000) in
  let entries := [((7, 0), 300000)] in
  let a1 := (@json_askrene_reserve a (Some entries)).1 in
  let rq := gr_rq (@get_routes common_fp16 a1 2 3 1000 []) in
  @get_constraints common_fp16 rq chan 0 = (0, 700000)
  ∧ @get_constraints common_fp16 rq chan 1 = (0, 1000000)
  ∧ @get_constraints common_fp16 rq chan 0
    = (saturating_sub (constraints_window rq chan 0).1
         (reserved_amount (a_reserved a) (7, 0)
          + path_amount entries (7, 0)),
       saturating_sub (constraints_window rq chan 0).2
         (reserved_amount (a_reserved a) (7, 0)
          + path_amount entries (7, 0))).
Proof.
  intros a chan entries a1 rq.
  split; [reflexivity|]. split; [reflexivity|].
  apply (@reserve_then_query common_fp16 a a1 entries 2 3 1000 [] chan 0).
  - reflexivity.
  - simpl. left.
  - reflexivity.
Defined.

(** X13: a maximum of 400000 msat on (7, 0) in layer "l", a channel of
    1000 sat. A query that selects "l" answers with the maximum; one that
    does not answers with the capacity as the cache holds it. *)
Lemma inform_channel_then_query_witness :
  let a := sample_askrene [sample_chan 7 (Some 1000)] [] ∅ ∅ in
  let chan := sample_chan 7 (Some 1000) in
  let p := sample_inform_max 400000 in
  let a1 := (json_askrene_inform_channel a false 2000 (Some p)).1 in
  let rq := gr_rq (@get_routes common_fp16 a1 2 3 1000 ["l"]) in
  @get_constraints common_fp16 rq chan 0 = (0, 400000)
  ∧ @get_constraints common_fp16
      (gr_rq (@get_routes common_fp16 a1 2 3 1000 [])) chan 0 = (0, 1000000)
  ∧ (∀ limit, ic_minimum_msat p = None → ic_maximum_msat p = Some limit →
              0 ≤ limit → 0 ≤ reserved_amount (a_reserved a) (7, 0) →
              (@get_constraints common_fp16 rq chan 0).2 ≤ limit)
  ∧ (∀ limit, ic_minimum_msat p = Some limit → ic_maximum_msat p = None →
              limit - reserved_amount (a_reserved a) (7, 0)
              ≤ (@get_constraints common_fp16 rq chan 0).1).
Proof.
  intros a chan p a1 rq.
  split; [reflexivity|]. split; [reflexivity|].
  apply (@inform_channel_then_query common_fp16 a 2000 p 2 3 1000 ["l"] chan).
  - reflexivity.
  - reflexivity.
  - simpl. left.
Defined.

(** X14: a window whose lower end lies above the upper end. *)
Lemma get_constraints_range_witness :
  let chan := sample_chan 7 (Some 1000) in
  let rq := sample_rq [0]
              [sample_layer "l" [((7, 0, CONSTRAINT_MIN), 500);
                                 ((7, 0, CONSTRAINT_MAX), 100)]]
              (sample_reserved (7, 0) 30) chan in
  @get_constraints common_fp16 rq chan 0 = (470, 70)
  ∧ 0 ≤ (@get_constraints common_fp16 rq chan 0).1 ≤ U64_MAX
  ∧ 0 ≤ (@get_constraints common_fp16 rq chan 0).2 ≤ U64_MAX.
Proof.
  intros chan rq. split; [reflexivity|].
  apply (@get_constraints_range common_fp16 rq chan 0).
  - apply (bool_decide_unpack _). vm_compute. exact I.
  - apply (bool_decide_unpack _). vm_compute. exact I.
  - vm_compute. discriminate.
  - vm_compute. discriminate.
Defined.

(** ** Local channels *)

(** X17. Create-channel twice on the same layer and scid. After a request
    that was carried out, a second one is compared with the stored channel
    on source, destination and capacity only: when they agree it succeeds
    and stores its own fees, delay and HTLC bounds, and it leaves the
    state as it was when it asks for the same channel; when they differ
    it fails and changes nothing. *)
Theorem create_channel_again (a : askrene) (p p' : create_channel_params) :
  create_channel_conflict a p = false →
  cc_layer p' = cc_layer p →
  cc_short_channel_id p' = cc_short_channel_id p →
  let a1 := (json_askrene_create_channel a false (Some p)).1 in
  let r := json_askrene_create_channel a1 false (Some p') in
  (channel_matches (requested_channel p) p' →
   r.2 = command_finished resp_empty
   ∧ askrene_local_channel r.1 (cc_layer p) (cc_short_channel_id p)
     = Some (requested_channel p')
   ∧ (requested_channel p' = requested_channel p → r.1 = a1))
  ∧ (¬ channel_matches (requested_channel p) p' →
     r = (a1, command_fail JSONRPC2_INVALID_PARAMS
                (msg_text "channel already exists with different values!"))).
Proof.
  intros Hok Hlayer Hscid a1 r.
  assert (Ha1 : ∃ a0 l0,
             a1 = set_layer a0 (cc_layer p)
                    (layer_update_local_channel l0 (cc_source p)
                       (cc_destination p) (cc_short_channel_id p)
                       (cc_capacity_msat p) (cc_fee_base_msat p)
                       (cc_fee_proportional_millionths p) (cc_delay p)
                       (cc_htlc_minimum_msat p) (cc_htlc_maximum_msat p))).
  { unfold a1, json_askrene_create_channel. rewrite Hok.
    destruct (find_layer a (cc_layer p)); simpl; eauto. }
  destruct Ha1 as (a0 & l0 & Ha1).
  set (l1 := layer_update_local_channel l0 _ _ _ _ _ _ _ _ _) in Ha1.
  assert (Hfind : find_layer a1 (cc_layer p') = Some l1).
  { rewrite Ha1, Hlayer, find_layer_set_layer. by case_decide. }
  assert (Hlc : layer_find_local_channel l1 (cc_short_channel_id p')
                = Some (requested_channel p)).
  { rewrite Hscid. unfold l1, layer_find_local_channel. simpl.
    by rewrite lookup_insert_eq. }
  pose proof (channel_matches_check (requested_channel p) p') as Hchk.
  unfold r, json_askrene_create_channel, create_channel_conflict.
  rewrite Hfind, Hlc.
  destruct (layer_check_local_channel _ _ _ _); simpl.
  - split; [|intros Hno; exfalso; apply Hno; by apply Hchk].
    intros _. split; [done|]. split.
    + unfold askrene_local_channel.
      rewrite <- Hlayer, find_layer_set_layer. case_decide; [|done]. simpl.
      unfold layer_find_local_channel. simpl.
      by rewrite <- Hscid, lookup_insert_eq.
    + intros Heq. rewrite Ha1. unfold set_layer. simpl. f_equal.
      rewrite Hlayer, insert_insert_eq. f_equal.
      unfold l1, layer_update_local_channel. simpl. f_equal.
      rewrite Hscid, insert_insert_eq. f_equal. exact Heq.
  - split; [intros Hm; apply Hchk in Hm; done|done].
Qed.

(** X17: the same endpoints and capacity with another fee are accepted
    and the fee is replaced; another capacity is refused. *)
Lemma create_channel_again_witness :
  let a := sample_askrene [] [] ∅ ∅ in
  let p := sample_create 1000 in
  let p' := {| cc_layer := "l"; cc_source := 2; cc_destination := 3;
               cc_short_channel_id := 5; cc_capacity_msat := 1000;
               cc_htlc_minimum_msat := 0; cc_htlc_maximum_msat := 1000;
               cc_fee_base_msat := 7; cc_fee_proportional_millionths := 10;
               cc_delay := 6 |} in
  let a1 := (json_askrene_create_channel a false (Some p)).1 in
  let r := json_askrene_create_channel a1 false (Some p') in
  (hc_base_fee <$> (lc_half <$> askrene_local_channel a1 "l" 5)) = Some 1000
  ∧ (hc_base_fee <$> (lc_half <$> askrene_local_channel r.1 "l" 5)) = Some 7
  ∧ (channel_matches (requested_channel p) p' →
     r.2 = command_finished resp_empty
     ∧ askrene_local_channel r.1 (cc_layer p) (cc_short_channel_id p)
       = Some (requested_channel p')
     ∧ (requested_channel p' = requested_channel p → r.1 = a1))
  ∧ (¬ channel_matches (requested_channel p) p' →
     r = (a1, command_fail JSONRPC2_INVALID_PARAMS
                (msg_text "channel already exists with different values!"))).
Proof.
  intros a p p' a1 r.
  split; [reflexivity|]. split; [reflexivity|].
  exact (create_channel_again a p p' eq_refl eq_refl eq_refl).
Defined.

(** ** Unreserve *)

Lemma path_amount_notin (entries : list ((Z * Z) * Z)) (s : Z * Z) :
  s ∉ entries.*1 → path_amount entries s = 0 ∧ path_count entries s = 0.
Proof.
  induction entries as [|[s' amount] entries IH]; [done|].
  simpl. intros [Hne Hni]%not_elem_of_cons.
  destruct (IH Hni) as [-> ->]. by case_decide.
Qed.

(** One entry of [reserves_remove] that goes through. *)
Lemma reserve_remove_one_Some (reserved reserved' : reserve_hash)
    (scidd : Z * Z) (amount : Z) :
  reserve_remove_one reserved scidd amount = Some reserved' →
  (∃ r, reserved !! scidd = Some r
        ∧ amount ≤ r_amount r ∧ 1 ≤ r_num_htlcs r
        ∧ reserved' !! scidd
          = (if r_num_htlcs r - 1 =? 0 then None
             else Some {| r_amount := r_amount r - amount;
                          r_num_htlcs := r_num_htlcs r - 1 |}))
  ∧ (∀ s, scidd ≠ s → reserved' !! s = reserved !! s).
Proof.
  unfold reserve_remove_one, amount_msat_sub. intros Hrem.
  destruct (reserved !! scidd) as [r|] eqn:Hr; [|done].
  destruct (Z.ltb_spec (r_amount r) amount); [done|].
  destruct (Z.ltb_spec (r_num_htlcs r) 1); [done|].
  destruct (r_num_htlcs r - 1 =? 0) eqn:Hz; injection Hrem as <-.
  - split.
    + exists r. split; [done|]. split; [lia|]. split; [lia|].
      by rewrite Hz, lookup_delete_eq.
    + intros s Hne. by rewrite lookup_delete_ne.
  - split.
    + exists r. split; [done|]. split; [lia|]. split; [lia|].
      by rewrite Hz, lookup_insert_eq.
    + intros s Hne. by rewrite lookup_insert_ne.
Qed.

(** One entry that fails: no record, too small an amount, or no HTLC. *)
Lemma reserve_remove_one_None (reserved : reserve_hash) (scidd : Z * Z)
    (amount : Z) :
  reserve_remove_one reserved scidd amount = None →
  match find_reserve reserved scidd with
  | Some r => r_amount r < amount ∨ r_num_htlcs r < 1
  | None => True
  end.
Proof.
  unfold reserve_remove_one, find_reserve, amount_msat_sub.
  destruct (reserved !! scidd) as [r|]; [|done].
  destruct (Z.ltb_spec (r_amount r) amount); [by left|].
  destruct (Z.ltb_spec (r_num_htlcs r) 1); [by right|].
  by destruct (_ =? _).
Qed.

(** The loop of [reserves_remove] stops at the first entry that fails,
    having applied exactly the entries before it. *)
Lemma reserves_remove_from_spec (path : list ((Z * Z) * Z))
    (reserved reserved' : reserve_hash) (i n : nat) :
  reserves_remove_from reserved path i = (reserved', n) →
  ∃ k : nat,
    n = (i + k)%nat ∧ (k ≤ length path)%nat
    ∧ (∀ s, unreserved (reserved !! s) (reserved' !! s)
              (path_amount (take k path) s) (path_count (take k path) s)
              (s ∈ (take k path).*1))
    ∧ ((k < length path)%nat →
       ∃ s amount, path !! k = Some (s, amount)
                   ∧ match find_reserve reserved' s with
                     | Some r => r_amount r < amount ∨ r_num_htlcs r < 1
                     | None => True
                     end).
Proof.
  revert reserved i.
  induction path as [|[s amount] path IH]; intros reserved i Hrun.
  { injection Hrun as <- <-. exists 0%nat. simpl.
    split; [lia|]. split; [lia|]. split; [|lia].
    intros s. unfold unreserved.
    destruct (reserved !! s) as [r|]; [|by intros ?%elem_of_nil].
    split; [lia|]. split; [lia|]. by intros ?%elem_of_nil. }
  simpl in Hrun.
  destruct (reserve_remove_one reserved s amount) as [reserved1|] eqn:Hone.
  - destruct (IH _ _ Hrun) as (k & -> & Hk & Hrel & Hfail).
    exists (S k). simpl. split; [lia|]. split; [lia|].
    split; [|intros Hlt; apply Hfail; lia].
    destruct (reserve_remove_one_Some _ _ _ _ Hone)
      as ((r & Hr & Hamt & Hcnt & Hr1) & Hother).
    intros s'. specialize (Hrel s'). unfold unreserved in *.
    destruct (decide (s = s')) as [<-|Hne].
    + rewrite Hr. rewrite Hr1 in Hrel.
      destruct (Z.eqb_spec (r_num_htlcs r - 1) 0) as [Hz|Hnz].
      * destruct (reserved' !! s) as [r'|]; [done|].
        destruct (path_amount_notin _ _ Hrel) as [-> ->].
        split; [left|]. split; lia.
      * destruct (reserved' !! s) as [r'|]; simpl in Hrel.
        -- destruct Hrel as (Ha & Hc & Hnamed).
           split; [lia|]. split; [lia|]. intros _.
           destruct (decide (s ∈ (take k path).*1)) as [Hin|Hni];
             [by apply Hnamed|].
           destruct (path_amount_notin _ _ Hni) as [Hpa Hpc]. lia.
        -- destruct Hrel as (Hin & Hc & Ha).
           split; [left|]. split; lia.
    + rewrite (Hother s' Hne) in Hrel.
      destruct (reserved !! s') as [r0|], (reserved' !! s') as [r'|];
        try done.
      * destruct Hrel as (Ha & Hc & Hnamed). split; [done|]. split; [done|].
        intros [?|Hin]%elem_of_cons; [done|by apply Hnamed].
      * destruct Hrel as (Hin & Hc & Ha). split; [by right|done].
      * intros [?|Hin]%elem_of_cons; [done|by apply Hrel].
  - injection Hrun as <- <-. exists 0%nat. simpl.
    split; [lia|]. split; [lia|]. split.
    + intros s'. unfold unreserved.
      destruct (reserved !! s') as [r|]; [|by intros ?%elem_of_nil].
      split; [lia|]. split; [lia|]. by intros ?%elem_of_nil.
    + intros _. exists s, amount. split; [done|].
      by apply reserve_remove_one_None.
Qed.

(** X18. For every path, askrene-unreserve leaves the table with exactly
    the entries before an index [num] removed and the layers untouched;
    there is no rollback. A record that the entries name is left with so
    much less in amount and in HTLC count, with at least one HTLC and a
    non-negative amount, or it has left the table, its count used up; the
    other records stay. So the HTLC count of every scidd is less by the
    number of entries that name it, and no record counts fewer than one
    HTLC afterwards when none did before. When [num] is the length of the
    path the command succeeds. Otherwise the entry at [num] fails: its
    scidd has no record, and the report shows 0 HTLCs and no amount; or
    its record holds less than the amount asked or counts no HTLC, and the
    report shows the HTLC count and the amount of the record as the
    removals before [num] left it. *)
Theorem json_askrene_unreserve_partial (a : askrene)
    (entries : list ((Z * Z) * Z)) :
  let r := json_askrene_unreserve a (Some entries) in
  ∃ num : nat,
    (num ≤ length entries)%nat
    ∧ a_layers r.1 = a_layers a
    ∧ (∀ s, unreserved (a_reserved a !! s) (a_reserved r.1 !! s)
              (path_amount (take num entries) s)
              (path_count (take num entries) s)
              (s ∈ (take num entries).*1))
    ∧ (∀ s, reserved_htlcs (a_reserved r.1) s
            = reserved_htlcs (a_reserved a) s
              - path_count (take num entries) s)
    ∧ ((∀ s record, a_reserved a !! s = Some record →
                    1 ≤ r_num_htlcs record) →
       ∀ s record, a_reserved r.1 !! s = Some record →
                   1 ≤ r_num_htlcs record)
    ∧ (num = length entries →
       r.2 = reply_result (command_finished resp_empty))
    ∧ (num ≠ length entries →
       ∃ s amount,
         entries !! num = Some (s, amount)
         ∧ match find_reserve (a_reserved r.1) s with
           | Some record =>
               (r_amount record < amount ∨ r_num_htlcs record < 1)
               ∧ r.2 = reply_underflow num s amount (r_num_htlcs record)
                         (Some (r_amount record))
           | None => r.2 = reply_underflow num s amount 0 None
           end).
Proof.
  unfold json_askrene_unreserve, param_reserve_path, reserves_remove. simpl.
  rewrite !length_fmap, zip_fst_snd, firstn_all.
  destruct (reserves_remove_from (a_reserved a) entries 0)
    as [reserved num] eqn:Hrun.
  destruct (reserves_remove_from_spec _ _ _ _ _ Hrun)
    as (k & Hn & Hk & Hrel & Hfail).
  simpl in Hn. subst num.
  assert (Hhtlcs : ∀ s, reserved_htlcs reserved s
                        = reserved_htlcs (a_reserved a) s
                          - path_count (take k entries) s).
  { intros s. specialize (Hrel s). unfold unreserved, reserved_htlcs in *.
    destruct (a_reserved a !! s) as [r0|], (reserved !! s) as [r'|];
      simpl; try done.
    - lia.
    - lia.
    - destruct (path_amount_notin _ _ Hrel) as [_ ->]. done. }
  assert (Hwf : (∀ s record, a_reserved a !! s = Some record →
                             1 ≤ r_num_htlcs record) →
                ∀ s record, reserved !! s = Some record →
                            1 ≤ r_num_htlcs record).
  { intros Hwf s record Hrec. specialize (Hrel s). unfold unreserved in Hrel.
    rewrite Hrec in Hrel.
    destruct (a_reserved a !! s) as [r0|] eqn:Hr0; [|done].
    destruct Hrel as (_ & Hc & Hnamed).
    destruct (decide (s ∈ (take k entries).*1)) as [Hin|Hni];
      [by apply Hnamed|].
    destruct (path_amount_notin _ _ Hni) as [_ Hpc].
    specialize (Hwf s r0 Hr0). lia. }
  exists k. case_bool_decide as Hcase; simpl.
  all: do 5 (split; [done|]).
  - split; [done|]. intros _.
    destruct Hfail as (s & amount & Hk' & Hr); [lia|].
    exists s, amount. split; [done|].
    assert (H1 : entries.*1 !! k = Some s)
      by (by rewrite list_lookup_fmap, Hk').
    assert (H2 : entries.*2 !! k = Some amount)
      by (by rewrite list_lookup_fmap, Hk').
    rewrite (list_lookup_total_correct _ _ _ H1),
            (list_lookup_total_correct _ _ _ H2).
    by destruct (find_reserve reserved s).
  - split; [done|]. intros Hne. by destruct Hne.
Qed.

(** X18: two removals from a record of 10 msat and 2 HTLCs, the second
    one too large; a removal that uses up the HTLC count, after which the
    record is gone; and a removal from a scidd that has no record, which
    the report shows as no amount. *)
Lemma json_askrene_unreserve_partial_witness :
  let a := sample_askrene [] [] ∅
             {[ (1, 0) := {| r_amount := 10; r_num_htlcs := 2 |} ]} in
  let r := json_askrene_unreserve a (Some [((1, 0), 4); ((1, 0), 7)]) in
  let r' := json_askrene_unreserve a (Some [((1, 0), 4); ((1, 0), 6)]) in
  r.2 = reply_underflow 1 (1, 0) 7 1 (Some 6)
  ∧ find_reserve (a_reserved r.1) (1, 0)
    = Some {| r_amount := 6; r_num_htlcs := 1 |}
  ∧ r'.2 = reply_result (command_finished resp_empty)
  ∧ find_reserve (a_reserved r'.1) (1, 0) = None
  ∧ (json_askrene_unreserve a (Some [((2, 1), 5)])).2
    = reply_underflow 0 (2, 1) 5 0 None
  ∧ ∃ num : nat,
      (num ≤ 2)%nat
      ∧ a_layers r.1 = a_layers a
      ∧ (∀ s, unreserved (a_reserved a !! s) (a_reserved r.1 !! s)
                (path_amount (take num [((1, 0), 4); ((1, 0), 7)]) s)
                (path_count (take num [((1, 0), 4); ((1, 0), 7)]) s)
                (s ∈ (take num [((1, 0), 4); ((1, 0), 7)]).*1)).
Proof.
  intros a r r'.
  do 5 (split; [reflexivity|]).
  destruct (json_askrene_unreserve_partial a [((1, 0), 4); ((1, 0), 7)])
    as (num & Hnum & Hlayers & Hrel & _).
  exists num. split; [exact Hnum|]. split; [exact Hlayers|exact Hrel].
Defined.

(** ** Check-only requests *)

(** X19. A check-only create-channel or inform-channel validates as the
    request itself would: it never changes the state; it answers
    [command_check_done] exactly when the request proper would succeed;
    and when it does not, the request proper gives the same failure and
    leaves the same state. *)
Theorem check_only_validates (a : askrene) :
  (∀ params,
      let r := json_askrene_create_channel a true params in
      let r' := json_askrene_create_channel a false params in
      r.1 = a
      ∧ (r.2 = command_check_done
         ↔ ∃ response, r'.2 = command_finished response)
      ∧ (r.2 ≠ command_check_done → r' = r))
  ∧ (∀ now params,
        let r := json_askrene_inform_channel a true now params in
        let r' := json_askrene_inform_channel a false now params in
        r.1 = a
        ∧ (r.2 = command_check_done
           ↔ ∃ response, r'.2 = command_finished response)
        ∧ (r.2 ≠ command_check_done → r' = r)).
Proof.
  split.
  - intros [p|]; simpl.
    2:{ split; [done|]. split; [|done]. split; [done|by intros [? ?]]. }
    destruct (create_channel_conflict a p); simpl.
    { split; [done|]. split; [|done]. split; [done|by intros [? ?]]. }
    split; [done|]. split; [|done]. split; [|done]. intros _.
    destruct (find_layer a (cc_layer p)); simpl; eauto.
  - intros now [p|]; simpl.
    2:{ split; [done|]. split; [|done]. split; [done|by intros [? ?]]. }
    destruct (ic_minimum_msat p), (ic_maximum_msat p); simpl.
    all: split; [done|]; split; [|done].
    all: try (split; [done|by intros [? ?]]).
    all: split; [|done]; intros _.
    all: destruct (find_layer a (ic_layer p)); simpl; eauto.
Qed.
